(** * Automation_email: the classification-and-reply workflow of email_agent.py

    A shallow embedding of [src/email_agent.py]: the Python string
    operations the workflow relies on, the two regular expressions it
    uses, the JSON values [json.loads] hands to it, the reply selection of
    [main_agent_workflow] and the three collaborators
    ([_fetch_latest_unread_email], [_run_ai_agent], [_send_smtp_email])
    over an explicit world state. *)

From Stdlib Require Import String Ascii ZArith Lia.
From stdpp Require Import gmap list.
From Equations Require Import Equations.
From Equations.Prop Require Import Logic.

Set Warnings "-register-all".

(** ** Python strings

    A Python [str] is a sequence of Unicode code points; a code point is
    an [N]. *)

Abbreviation str := (list N).

(** An ASCII literal of the source, as a [str]. *)
Definition lit (s : string) : str := N_of_ascii <$> list_ascii_of_string s.
Arguments lit s%_string.

(** The line feed, '\n' in the source. *)
Definition NL : N := 10.

(** [str.isspace] on one code point: CPython's [_PyUnicode_IsWhitespace]. *)
Definition isspace (c : N) : bool :=
  ((9 <=? c) && (c <=? 13) || (28 <=? c) && (c <=? 32) ||
   (c =? 133) || (c =? 160) || (c =? 5760) ||
   (8192 <=? c) && (c <=? 8202) || (c =? 8232) || (c =? 8233) ||
   (c =? 8239) || (c =? 8287) || (c =? 12288))%N.

Fixpoint lstrip (s : str) : str :=
  match s with
  | c :: r => if isspace c then lstrip r else s
  | [] => []
  end.

Definition rstrip (s : str) : str := reverse (lstrip (reverse s)).

(** [s.strip()] *)
Definition strip (s : str) : str := rstrip (lstrip s).

(** [str.lower] on one code point. It is exact on ASCII and on U+0130 and
    U+212A, the only code points outside ASCII whose lowercase form
    contains an ASCII letter. Every other code point is kept: CPython
    maps it to code points outside ASCII, which the comparison with the
    ASCII greeting tokens below cannot tell from the code point itself. *)
Definition lower_char (c : N) : str :=
  if ((65 <=? c) && (c <=? 90))%N then [(c + 32)%N]
  else if (c =? 304)%N then [105%N; 775%N]
  else if (c =? 8490)%N then [107%N]
  else [c].

(** [s.lower()] *)
Definition lower (s : str) : str := s ≫= lower_char.

(** [s.startswith(p)] for one prefix. *)
Fixpoint startswith (s p : str) : bool :=
  match p, s with
  | [], _ => true
  | a :: p', b :: s' => (a =? b)%N && startswith s' p'
  | _ :: _, [] => false
  end.

(** [s.startswith((p1, ..., pn))] for a tuple of prefixes. *)
Definition startswith_any (s : str) (ps : list str) : bool :=
  existsb (startswith s) ps.

(** ** The pattern [<[^>]+>]

    The source uses it twice: [re.sub(r'<[^>]+>', '', reply)] on the
    reply and [re.search(r'<([^>]+)>', from_header)] on the From header.
    '<' is code point 60 and '>' is 62. *)

Definition LT : N := 60.
Definition GT : N := 62.

(** The greedy run [[^>]*] at the head of [s]: the characters before the
    first '>' of [s], and what is left (from that '>' on, or nothing). *)
Fixpoint until_gt (s : str) : str :=
  match s with
  | c :: r => if (c =? GT)%N then [] else c :: until_gt r
  | [] => []
  end.

Fixpoint from_gt (s : str) : str :=
  match s with
  | c :: r => if (c =? GT)%N then s else from_gt r
  | [] => []
  end.

(** One attempt of [<([^>]+)>] at the head of [s]; on success, group 1
    and the text after the match. The run [[^>]+] is greedy and needs one
    character; giving characters back cannot help, since none of them is
    '>'. *)
Definition match_tag (s : str) : option (str * str) :=
  match s with
  | c :: d :: r =>
      if (c =? LT)%N && negb (d =? GT)%N then
        match from_gt r with
        | _ :: rest => Some (d :: until_gt r, rest)
        | [] => None
        end
      else None
  | _ => None
  end.

(** [re.sub(r'<[^>]+>', '', s)]: the leftmost matches, none overlapping,
    are removed; where the pattern does not match, one character is kept
    and the search goes on after it. *)
Equations sub_tags (s : str) : str by wf (length s) lt :=
  sub_tags [] := [];
  sub_tags (c :: r) with inspect (match_tag (c :: r)) := {
    | exist _ (Some (_, rest)) _ => sub_tags rest
    | exist _ None _ => c :: sub_tags r }.
Next Obligation.
  assert (Hgt : ∀ t : str, length (from_gt t) <= length t).
  { induction t as [|x t IH]; simpl; [lia|]. destruct (x =? GT)%N; simpl; lia. }
  destruct r as [|d r]; simpl in e; [discriminate|].
  destruct ((c =? LT)%N && negb (d =? GT)%N); [|discriminate].
  specialize (Hgt r). destruct (from_gt r) as [|g t]; [discriminate|].
  injection e as _ <-. simpl in *. lia.
Defined.

(** [re.search(r'<([^>]+)>', s)]: group 1 of the leftmost match. *)
Fixpoint search_tag (s : str) : option str :=
  match s with
  | [] => None
  | _ :: r =>
      match match_tag s with
      | Some (g, _) => Some g
      | None => search_tag r
      end
  end.

(** Sanitation, line 252: [re.sub(r'<[^>]+>', '', reply).strip()]. *)
Definition sanitize (reply : str) : str := strip (sub_tags reply).

(** ** The pattern [\{.*\}] with [re.DOTALL]

    '{' is code point 123 and '}' is 125. *)

Definition LBRACE : N := 123.
Definition RBRACE : N := 125.

(** [.*\}] at the head of [s]: the greedy [.*] takes the whole text and
    gives characters back until a '}' follows, so the match is the
    longest prefix of [s] that ends in '}'. *)
Fixpoint upto_last_rbrace (s : str) : option str :=
  match s with
  | [] => None
  | c :: r =>
      match upto_last_rbrace r with
      | Some t => Some (c :: t)
      | None => if (c =? RBRACE)%N then Some [c] else None
      end
  end.

(** One attempt of [\{.*\}] at the head of [s]: the matched text. *)
Definition match_braces (s : str) : option str :=
  match s with
  | c :: r => if (c =? LBRACE)%N then (c ::.) <$> upto_last_rbrace r else None
  | [] => None
  end.

(** [re.search(r"\{.*\}", s, re.DOTALL)]: group 0 of the leftmost match. *)
Fixpoint search_braces (s : str) : option str :=
  match s with
  | [] => None
  | _ :: r =>
      match match_braces s with
      | Some m => Some m
      | None => search_braces r
      end
  end.

(** ** JSON values, as [json.loads] returns them

    [None], [bool], [int], [float], [str], [list] and [dict] with string
    keys. A float is kept as the decimal literal it was read from (sign,
    digits, power of ten) or as one of the constants [NaN], [Infinity],
    [-Infinity]; the workflow only ever asks for its truth value. *)

Inductive pyfloat :=
| FDec (neg : bool) (digits : N) (exp10 : Z)
| FNaN
| FInf (neg : bool).

Inductive json :=
| JNull
| JBool (b : bool)
| JInt (z : Z)
| JFloat (f : pyfloat)
| JStr (s : str)
| JArr (l : list json)
| JObj (d : gmap str json).

(** A decimal literal is read as the nearest double, ties to even: it is
    [0.0] exactly when its magnitude is at most 2^-1075. *)
Definition float_nonzero (f : pyfloat) : bool :=
  match f with
  | FDec _ digits exp10 =>
      if (0 <=? exp10)%Z then negb (digits =? 0)%N
      else (10 ^ (- exp10) <? Z.of_N digits * 2 ^ 1075)%Z
  | FNaN | FInf _ => true
  end.

(** Python's truth value of a JSON value ([bool(v)]). *)
Definition truthy (v : json) : bool :=
  match v with
  | JNull => false
  | JBool b => b
  | JInt z => negb (z =? 0)%Z
  | JFloat f => float_nonzero f
  | JStr s => negb (Nat.eqb (length s) 0)
  | JArr l => negb (Nat.eqb (length l) 0)
  | JObj d => negb (Nat.eqb (size d) 0)
  end.

(** [d.get(key, default)] *)
Definition dict_get (d : gmap str json) (key : str) (dflt : json) : json :=
  default dflt (d !! key).

(** ** Exceptions

    The two exceptions the reply selection can raise, both uncaught in
    [main_agent_workflow]. *)

Inductive exn := TypeError | AttributeError.

Inductive result (A : Type) :=
| Ok (a : A)
| Raise (e : exn).
Arguments Ok {A} a.
Arguments Raise {A} e.

#[global] Instance result_bind : MBind result := λ A B f r,
  match r with
  | Ok a => f a
  | Raise e => Raise e
  end.

(** ** Reply selection, lines 234-255 of [main_agent_workflow] *)

Definition SAFE_DEFAULT_REPLY : str :=
  lit "Thank you for reaching out. I will review your message and respond shortly."
    ++ [NL; NL] ++ lit "Best regards," ++ [NL] ++ lit "EMAYAN R M".

(** Lines 242-250: the draft the flags select, the safe default standing
    in for a key that the dictionary does not have. *)
Definition choose_draft (d : gmap str json) : json :=
  let is_technical := dict_get d (lit "is_technical") (JBool false) in
  let request_meeting := dict_get d (lit "request_meeting") (JBool false) in
  if truthy is_technical && truthy request_meeting then
    dict_get d (lit "meeting_suggestion_draft") (JStr SAFE_DEFAULT_REPLY)
  else if truthy is_technical then
    dict_get d (lit "simple_reply_draft") (JStr SAFE_DEFAULT_REPLY)
  else
    dict_get d (lit "non_technical_reply_draft") (JStr SAFE_DEFAULT_REPLY).

(** Lines 239-250: [reply] before sanitation. [ai_output.get] on a value
    that is true and not a dictionary raises AttributeError. *)
Definition draft_of (ai_output : option json) : result json :=
  match ai_output with
  | None => Ok (JStr SAFE_DEFAULT_REPLY)
  | Some v =>
      if negb (truthy v) then Ok (JStr SAFE_DEFAULT_REPLY)
      else match v with
           | JObj d => Ok (choose_draft d)
           | _ => Raise AttributeError
           end
  end.

(** The tuple of line 254. *)
Definition GREETINGS : list str :=
  [lit "hello"; lit "hi"; lit "dear"; lit "thank you"].

(** Lines 254-255: greeting normalisation. *)
Definition greet (reply : str) : str :=
  if negb (startswith_any (lower reply) GREETINGS)
  then lit "Hello," ++ [NL; NL] ++ reply
  else reply.

(** Lines 234-255: from the classifier's output to the text that is sent.
    [re.sub] raises TypeError on a draft that is not a string. *)
Definition select_reply (ai_output : option json) : result str :=
  reply ← draft_of ai_output;
  match reply with
  | JStr s => Ok (greet (sanitize s))
  | _ => Raise TypeError
  end.

(** ** [json.loads]

    CPython's decoder ([json.decoder], [json.scanner]) with its default
    settings, working on the text that is left rather than on an index.
    A [JSONDecodeError] is [None]. *)

(** [WHITESPACE.match(s, end).end()]: skip blanks, tabs, line feeds and
    carriage returns. *)
Fixpoint skip_ws (s : str) : str :=
  match s with
  | c :: r => if ((c =? 32) || (c =? 9) || (c =? 10) || (c =? 13))%N
              then skip_ws r else s
  | [] => []
  end.

Definition is_digit (c : N) : bool := ((48 <=? c) && (c <=? 57))%N.

Definition hex_value (c : N) : option N :=
  if is_digit c then Some (c - 48)%N
  else if ((65 <=? c) && (c <=? 70))%N then Some (c - 55)%N
  else if ((97 <=? c) && (c <=? 102))%N then Some (c - 87)%N
  else None.

(** The four hexadecimal digits of a [\uXXXX] escape. *)
Definition hex4 (a b c d : N) : option N :=
  x ← hex_value a; y ← hex_value b; z ← hex_value c; t ← hex_value d;
  Some (((x * 16 + y) * 16 + z) * 16 + t)%N.

(** The table [BACKSLASH] of the decoder. *)
Definition backslash (c : N) : option N :=
  if (c =? 34)%N then Some 34%N        (* quote *)
  else if (c =? 92)%N then Some 92%N   (* backslash *)
  else if (c =? 47)%N then Some 47%N   (* slash *)
  else if (c =? 98)%N then Some 8%N    (* b: backspace *)
  else if (c =? 102)%N then Some 12%N  (* f: form feed *)
  else if (c =? 110)%N then Some 10%N  (* n: line feed *)
  else if (c =? 114)%N then Some 13%N  (* r: carriage return *)
  else if (c =? 116)%N then Some 9%N   (* t: tab *)
  else None.

Definition is_high_surrogate (u : N) : bool := ((55296 <=? u) && (u <=? 56319))%N.
Definition is_low_surrogate (u : N) : bool := ((56320 <=? u) && (u <=? 57343))%N.

(** [scanstring(s, end, strict=True)], entered after the opening quote:
    the decoded string (in [acc], reversed) and the text after the
    closing quote. *)
Fixpoint scanstring (s acc : str) : option (str * str) :=
  match s with
  | [] => None
  | c :: r =>
      if (c =? 34)%N then Some (reverse acc, r)
      else if (c =? 92)%N then
        match r with
        | [] => None
        | e :: r1 =>
            if (e =? 117)%N then
              match r1 with
              | h1 :: h2 :: h3 :: h4 :: r2 =>
                  match hex4 h1 h2 h3 h4 with
                  | None => None
                  | Some u =>
                      match r2 with
                      | b :: v :: g1 :: g2 :: g3 :: g4 :: r3 =>
                          if is_high_surrogate u && (b =? 92)%N && (v =? 117)%N then
                            match hex4 g1 g2 g3 g4 with
                            | None => None
                            | Some u2 =>
                                if is_low_surrogate u2
                                then scanstring r3
                                       ((65536 + (u - 55296) * 1024 + (u2 - 56320))%N :: acc)
                                else scanstring r2 (u :: acc)
                            end
                          else scanstring r2 (u :: acc)
                      | _ => scanstring r2 (u :: acc)
                      end
                  end
              | _ => None
              end
            else
              match backslash e with
              | Some x => scanstring r1 (x :: acc)
              | None => None
              end
        end
      else if (c <? 32)%N then None
      else scanstring r (c :: acc)
  end.

(** The digits [[0-9]*] at the head of [s], and what follows them. *)
Fixpoint span_digits (s : str) : str * str :=
  match s with
  | c :: r => if is_digit c then let '(ds, t) := span_digits r in (c :: ds, t)
              else ([], s)
  | [] => ([], [])
  end.

Definition digits_value (ds : str) : N :=
  foldl (λ acc c, acc * 10 + (c - 48))%N 0%N ds.

(** The integer part of [NUMBER_RE]: a zero, or a digit from 1 to 9 and
    the digits after it. *)
Definition match_int_part (s : str) : option (str * str) :=
  match s with
  | c :: r =>
      if (c =? 48)%N then Some ([c], r)
      else if is_digit c then let '(ds, t) := span_digits r in Some (c :: ds, t)
      else None
  | [] => None
  end.

(** The optional fraction [(\.[0-9]+)?]: its digits. *)
Definition match_frac (s : str) : str * str :=
  match s with
  | c :: r =>
      if (c =? 46)%N then
        match span_digits r with
        | ([], _) => ([], s)
        | (ds, t) => (ds, t)
        end
      else ([], s)
  | [] => ([], s)
  end.

(** An optional sign [[-+]?]: whether it is a minus, and what follows. *)
Definition match_sign (s : str) : bool * str :=
  match s with
  | c :: r =>
      if (c =? 45)%N then (true, r)
      else if (c =? 43)%N then (false, r)
      else (false, s)
  | [] => (false, s)
  end.

(** The optional exponent [([eE][-+]?[0-9]+)?]: its value. *)
Definition match_exp (s : str) : option Z * str :=
  match s with
  | e :: r =>
      if ((e =? 101) || (e =? 69))%N then
        let '(neg, r1) := match_sign r in
        match span_digits r1 with
        | ([], _) => (None, s)
        | (ds, t) =>
            let v := Z.of_N (digits_value ds) in
            (Some (if neg then - v else v)%Z, t)
        end
      else (None, s)
  | [] => (None, s)
  end.

(** [NUMBER_RE.match] and the conversion that follows it: [int] when
    there is neither fraction nor exponent, [float] otherwise. *)
Definition match_number (s : str) : option (json * str) :=
  let '(neg, s1) := match s with
                    | c :: r => if (c =? 45)%N then (true, r) else (false, s)
                    | [] => (false, s)
                    end in
  '(ip, s2) ← match_int_part s1;
  let '(fr, s3) := match_frac s2 in
  let '(ex, s4) := match_exp s3 in
  match fr, ex with
  | [], None =>
      let v := Z.of_N (digits_value ip) in
      Some (JInt (if neg then - v else v)%Z, s4)
  | _, _ =>
      Some (JFloat (FDec neg (digits_value (ip ++ fr))
                         (default 0%Z ex - Z.of_nat (length fr))), s4)
  end.

(** [s[idx:idx+len(w)] == w], and the text after [w]. *)
Fixpoint strip_prefix (w s : str) : option str :=
  match w, s with
  | [], _ => Some s
  | a :: w', b :: s' => if (a =? b)%N then strip_prefix w' s' else None
  | _ :: _, [] => None
  end.

(** [scan_once], [JSONObject] and [JSONArray]. [object_members] is the
    loop of [JSONObject], entered after the opening quote of a key with
    the pairs read so far; [array_items] is the loop of [JSONArray],
    entered at a value. In a chain of calls, every second call at the
    latest starts further in the text than the ones before it, so
    [2 * length s + 1] units of fuel are never used up ([scan_fuel]
    below). CPython also gives up, with an exception, on nesting beyond
    its recursion limit and on integer literals beyond its digit limit;
    this decoder reads them. *)
Fixpoint scan_once (fuel : nat) (s : str) : option (json * str) :=
  match fuel with
  | 0 => None
  | S fuel =>
      match s with
      | [] => None
      | c :: r =>
          if (c =? 34)%N then
            '(k, t) ← scanstring r []; Some (JStr k, t)
          else if (c =? LBRACE)%N then
            match skip_ws r with
            | x :: t =>
                if (x =? RBRACE)%N then Some (JObj ∅, t)
                else if (x =? 34)%N then object_members fuel t ∅
                else None
            | [] => None
            end
          else if (c =? 91)%N then
            match skip_ws r with
            | x :: t =>
                if (x =? 93)%N then Some (JArr [], t)
                else array_items fuel (x :: t) []
            | [] => None
            end
          else
            match strip_prefix (lit "null") s, strip_prefix (lit "true") s,
                  strip_prefix (lit "false") s with
            | Some t, _, _ => Some (JNull, t)
            | _, Some t, _ => Some (JBool true, t)
            | _, _, Some t => Some (JBool false, t)
            | None, None, None =>
                match match_number s with
                | Some n => Some n
                | None =>
                    match strip_prefix (lit "NaN") s, strip_prefix (lit "Infinity") s,
                          strip_prefix (lit "-Infinity") s with
                    | Some t, _, _ => Some (JFloat FNaN, t)
                    | _, Some t, _ => Some (JFloat (FInf false), t)
                    | _, _, Some t => Some (JFloat (FInf true), t)
                    | None, None, None => None
                    end
                end
            end
      end
  end
with object_members (fuel : nat) (s : str) (d : gmap str json) : option (json * str) :=
  match fuel with
  | 0 => None
  | S fuel =>
      '(key, s1) ← scanstring s [];
      match skip_ws s1 with
      | x :: s2 =>
          if (x =? 58)%N then
            '(value, s3) ← scan_once fuel (skip_ws s2);
            let d := <[key := value]> d in
            match skip_ws s3 with
            | y :: s4 =>
                if (y =? RBRACE)%N then Some (JObj d, s4)
                else if (y =? 44)%N then
                  match skip_ws s4 with
                  | z :: s5 => if (z =? 34)%N then object_members fuel s5 d else None
                  | [] => None
                  end
                else None
            | [] => None
            end
          else None
      | [] => None
      end
  end
with array_items (fuel : nat) (s : str) (acc : list json) : option (json * str) :=
  match fuel with
  | 0 => None
  | S fuel =>
      '(value, s1) ← scan_once fuel s;
      match skip_ws s1 with
      | x :: s2 =>
          if (x =? 93)%N then Some (JArr (reverse (value :: acc)), s2)
          else if (x =? 44)%N then array_items fuel (skip_ws s2) (value :: acc)
          else None
      | [] => None
      end
  end.

(** [json.loads(s)]: a text that starts with the byte order mark is
    refused; one value is read between optional whitespace, and anything
    after it is an error (Extra data). *)
Definition json_loads (s : str) : option json :=
  if startswith s [65279%N] then None
  else
    '(v, rest) ← scan_once (S (2 * length s)) (skip_ws s);
    match skip_ws rest with
    | [] => Some v
    | _ :: _ => None
    end.

(** ** The world of one run

    What the collaborators talk to: the mailbox behind IMAP, the Gemini
    client and the SMTP server. *)

(** What [email.message_from_bytes] gives for a message: its headers and
    its content. A payload is [None] when decoding it raises. For a
    multipart message, [parts] lists what [walk()] yields: the content
    type and the payload of each part. *)
Inductive content :=
| Single (payload : option str)
| Multipart (parts : list (str * option str)).

Record message := {
  from_header : option str;
  subject_header : option str;
  body_content : content;
}.

(** What [generate_content] does with a prompt: it raises, or it returns
    a response with a text. *)
Inductive generated :=
| GenRaises
| GenText (text : str).

(** A call of one of the collaborators is recorded, and so is the
    marking of a message as seen. *)
Inductive event :=
| MarkedSeen (m : message)
| Classified (from_email subject body : str)
| SendAttempt (to_email subject content : str).

(** [credentials]: EMAIL_ADDRESS and EMAIL_PASSWORD are both set.
    [imap_up]: the mailbox can be reached and its commands succeed;
    when it cannot, the failure comes before any message is touched.
    [unseen]: the UNSEEN messages, in the order of the server's answer. [gemini_client]: the client, when it was
    initialised; the prompt is a fixed text around the three fields of
    the message, so the client is a function of them. [smtp_up]: logging
    in and sending succeed. *)
Record world := {
  credentials : bool;
  imap_up : bool;
  unseen : list message;
  gemini_client : option (str → str → str → generated);
  smtp_up : bool;
  trace : list event;
}.

Definition record_event (e : event) (w : world) : world :=
  {| credentials := credentials w; imap_up := imap_up w; unseen := unseen w;
     gemini_client := gemini_client w; smtp_up := smtp_up w;
     trace := trace w ++ [e] |}.

Definition set_unseen (l : list message) (w : world) : world :=
  {| credentials := credentials w; imap_up := imap_up w; unseen := l;
     gemini_client := gemini_client w; smtp_up := smtp_up w;
     trace := trace w |}.

(** ** [_send_smtp_email], lines 115-136 *)
Definition _send_smtp_email (to_email subject content : str) (w : world)
  : world * bool :=
  let w := record_event (SendAttempt to_email subject content) w in
  if negb (credentials w) then (w, false)
  else (w, smtp_up w).

(** ** [_fetch_latest_unread_email], lines 139-181 *)

(** Lines 162-163: what [email_message.get(name, failobj)] returns. The
    parser reads the header bytes as ASCII and keeps a raw 8-bit byte as
    one of the surrogate code points U+DC80 to U+DCFF. A header with
    such a byte comes back as an [email.header.Header] object, any other
    header as a [str], and an absent header as [failobj]. *)
Inductive header_value :=
| HeaderStr (s : str)
| HeaderObject (raw : str).

Definition is_surrogate (c : N) : bool := ((55296 <=? c) && (c <=? 57343))%N.

Definition has_surrogates (s : str) : bool := existsb is_surrogate s.

Definition get_header (header : option str) (failobj : str) : header_value :=
  match header with
  | None => HeaderStr failobj
  | Some s => if has_surrogates s then HeaderObject s else HeaderStr s
  end.

(** [str(header)] for such a [Header] object, as the f-strings of lines
    193 and 257 take it: every raw byte reads as U+FFFD. *)
Definition header_str (raw : str) : str :=
  (λ c, if is_surrogate c then 65533%N else c) <$> raw.

(** Lines 162 and 165-166: the address between angle brackets, or the
    whole header when there are none; an absent header reads as the
    empty string. On a [Header] object [re.search] raises TypeError:
    [None]. *)
Definition sender_of (m : message) : option str :=
  match get_header (from_header m) [] with
  | HeaderObject _ => None
  | HeaderStr from_header =>
      match search_tag from_header with
      | Some g => Some g
      | None => Some from_header
      end
  end.

(** Line 163, and the text the subject is formatted to. *)
Definition subject_of (m : message) : str :=
  match get_header (subject_header m) (lit "No Subject") with
  | HeaderStr s => s
  | HeaderObject raw => header_str raw
  end.

(** Lines 168-175: the first text/plain part of a multipart message (the
    empty string when there is none), the payload otherwise; [None] when
    decoding raises. *)
Fixpoint first_plain (parts : list (str * option str)) : option str :=
  match parts with
  | [] => Some []
  | (ctype, payload) :: rest =>
      if bool_decide (ctype = lit "text/plain") then payload
      else first_plain rest
  end.

Definition body_of (m : message) : option str :=
  match body_content m with
  | Single payload => payload
  | Multipart parts => first_plain parts
  end.

(** The three values the function returns are [None] together or
    strings together: an [option] of a triple. The newest unseen message
    is the last of the list; it is marked seen before it is read, so an
    exception raised while it is read (by [re.search] on the sender, by
    the decoding of the body) leaves it seen and gives [None]. *)
Definition _fetch_latest_unread_email (w : world)
  : world * option (str * str * str) :=
  if negb (credentials w) then (w, None)
  else if negb (imap_up w) then (w, None)
  else match reverse (unseen w) with
       | [] => (w, None)
       | latest :: older =>
           let w := record_event (MarkedSeen latest) (set_unseen (reverse older) w) in
           match sender_of latest, body_of latest with
           | Some from_email, Some body =>
               (w, Some (from_email, subject_of latest, body))
           | _, _ => (w, None)
           end
       end.

(** ** [_run_ai_agent], lines 184-220 *)
Definition _run_ai_agent (from_email subject body : str) (w : world)
  : world * option json :=
  let w := record_event (Classified from_email subject body) w in
  match gemini_client w with
  | None => (w, None)
  | Some generate_content =>
      match generate_content from_email subject body with
      | GenRaises => (w, None)
      | GenText text =>
          let raw := strip text in
          match search_braces raw with
          | Some m => (w, json_loads m)
          | None => (w, None)
          end
      end
  end.

(** ** [main_agent_workflow], lines 223-259

    The run ends normally ([Ok]) or with the exception that the reply
    selection raised. *)
Definition main_agent_workflow (w : world) : world * result unit :=
  let '(w, fetched) := _fetch_latest_unread_email w in
  match fetched with
  | None => (w, Ok ())
  | Some (from_email, subject, body) =>
      if Nat.eqb (length from_email) 0 then (w, Ok ())
      else
        let '(w, ai_output) := _run_ai_agent from_email subject body w in
        match select_reply ai_output with
        | Raise e => (w, Raise e)
        | Ok reply =>
            let '(w, _) := _send_smtp_email from_email (lit "Re: " ++ subject) reply w in
            (w, Ok ())
        end
  end.

(** ** Notions the properties are stated with *)

(** A markup-tag-like substring of [s]: '<', one or more characters
    other than '>', and '>'. *)
Definition has_tag (s : str) : Prop :=
  ∃ pre body post, s = pre ++ LT :: body ++ GT :: post ∧ body ≠ [] ∧ GT ∉ body.

(** What the fetch returns for the message it has marked seen: the
    three strings, or [None] when reading the message raises. *)
Definition read_message (m : message) : option (str * str * str) :=
  match sender_of m, body_of m with
  | Some from_email, Some body => Some (from_email, subject_of m, body)
  | _, _ => None
  end.

(** The draft field the policy chooses: [meeting_suggestion_draft] when
    [is_technical] and [request_meeting] are both true,
    [simple_reply_draft] when only [is_technical] is, and
    [non_technical_reply_draft] when [is_technical] is not. *)
Definition chosen_field (d : gmap str json) : str :=
  if truthy (dict_get d (lit "is_technical") (JBool false)) then
    if truthy (dict_get d (lit "request_meeting") (JBool false))
    then lit "meeting_suggestion_draft"
    else lit "simple_reply_draft"
  else lit "non_technical_reply_draft".

(** The five fields of the response schema. *)
Definition REQUIRED_FIELDS : list str :=
  [lit "is_technical"; lit "simple_reply_draft"; lit "non_technical_reply_draft";
   lit "request_meeting"; lit "meeting_suggestion_draft"].

(** The classification of scenario C: not technical, with an empty
    draft. *)
Definition scenario_C : gmap str json :=
  <[lit "is_technical" := JBool false]>
    (<[lit "non_technical_reply_draft" := JStr []]> ∅).

(** The classification of scenario A, all five fields present. *)
Definition scenario_A : gmap str json :=
  <[lit "is_technical" := JBool true]>
    (<[lit "request_meeting" := JBool true]>
       (<[lit "meeting_suggestion_draft" := JStr (lit "Let's meet Friday at 3PM.")]>
          (<[lit "simple_reply_draft" := JStr (lit "Hello, ARIMA fits short series.")]>
             (<[lit "non_technical_reply_draft" := JStr (lit "Thank you for your note.")]> ∅)))).

(** The number of send attempts and of classifications in a trace. *)
Definition is_send (e : event) : bool :=
  match e with SendAttempt _ _ _ => true | _ => false end.

Definition is_classification (e : event) : bool :=
  match e with Classified _ _ _ => true | _ => false end.

Definition sends (t : list event) : nat := length (List.filter is_send t).

Definition classifications (t : list event) : nat :=
  length (List.filter is_classification t).

(** A literal in which the apostrophe stands for the double quote. *)
Definition dq (s : string) : str :=
  (λ c, if (c =? 39)%N then 34%N else c) <$> lit s.
Arguments dq s%_string.

(** Following the words of the spec: the first well-formed JSON object
    substring of the text, decoded. From the left, at each '{', one JSON
    object is read if there is one; the first that is read is the
    result, whatever comes before and after it. *)
Fixpoint first_json_object (text : str) : option json :=
  match text with
  | [] => None
  | c :: r =>
      match (if (c =? LBRACE)%N then scan_once (S (2 * length text)) text else None) with
      | Some (v, _) => Some v
      | None => first_json_object r
      end
  end.

(** A mailbox with one unread message, and a Gemini client that answers
    every prompt with [text]. *)
Definition one_message (m : message) (client : option (str → str → str → generated))
  : world :=
  {| credentials := true; imap_up := true; unseen := [m];
     gemini_client := client; smtp_up := true; trace := [] |}.

Definition answering (text : str) : option (str → str → str → generated) :=
  Some (λ _ _ _, GenText text).

(** A message from Bob, and one without a From header. *)
Definition from_bob : message :=
  {| from_header := Some (lit "Bob <bob@example.com>");
     subject_header := Some (lit "ARIMA or LSTM?");
     body_content := Single (Some (lit "Which model should I use?")) |}.

Definition no_sender : message :=
  {| from_header := None;
     subject_header := Some (lit "ARIMA or LSTM?");
     body_content := Single (Some (lit "Which model should I use?")) |}.

(** A message whose From header is there and empty. *)
Definition empty_sender : message :=
  {| from_header := Some [];
     subject_header := None;
     body_content := Multipart [(lit "text/html", Some (lit "<p>Hi</p>"));
                                (lit "text/plain", Some (lit "Hi"))] |}.

(** A response with one field only, and a response with the whole
    object followed by a remark that has braces in it. *)
Definition partial_response : str := dq "{'is_technical': true}".

Definition chatty_response : str :=
  dq "{'is_technical': true} Note: {} means none".

(** A response with commentary around the object, as the pattern
    expects it. *)
Definition framed_response : str :=
  dq "Sure! {'is_technical': false, 'non_technical_reply_draft': 'Thank you.'} Bye.".

(** ** The script, lines 262-267

    The guard [if __name__ == '__main__'] is written twice, so running
    the file runs the workflow twice; an exception of the first run ends
    the script. *)
Definition script_main (w : world) : world * result unit :=
  let '(w, r) := main_agent_workflow w in
  match r with
  | Raise e => (w, Raise e)
  | Ok _ => main_agent_workflow w
  end.

(** ** Module initialisation, lines 17-47

    [os.environ] is a map from names to strings. *)

(** The truth value of [os.environ.get(name)]: the variable is set and
    not empty. *)
Definition env_set (env : gmap str str) (name : str) : bool :=
  match env !! name with
  | Some (_ :: _) => true
  | _ => false
  end.

(** Lines 27-36: what the LangSmith block leaves in [os.environ]. *)
Definition configure_langsmith (env : gmap str str) : gmap str str :=
  match env !! lit "LANGCHAIN_API_KEY" with
  | Some (c :: key) =>
      <[lit "LANGCHAIN_PROJECT" := lit "Email_automation_schedule"]>
        (<[lit "LANGCHAIN_API_KEY" := c :: key]>
           (<[lit "LANGCHAIN_TRACING_V2" := lit "true"]> env))
  | _ => <[lit "LANGCHAIN_TRACING_V2" := lit "false"]> env
  end.

(** Line 18 *)
Definition GEMINI_MODEL (env : gmap str str) : str :=
  default (lit "gemini-2.5-flash") (env !! lit "GEMINI_MODEL").

(** Lines 39-47: the client, when the key is set and [genai.Client]
    does not raise. [Client] is the constructor: from the key to a
    client, or [None] when it raises; a client answers for a model and
    the three fields of a message. *)
Definition init_gemini_client (env : gmap str str)
    (Client : str → option (str → str → str → str → generated))
  : option (str → str → str → str → generated) :=
  match env !! lit "GEMINI_API_KEY" with
  | Some (c :: key) => Client (c :: key)
  | _ => None
  end.

(** The world a process starts in: the credentials of lines 20-21 as
    lines 116 and 140 test them, the client of lines 39-47 called with
    the model of line 18 (lines 205-209). *)
Definition start (env : gmap str str)
    (Client : str → option (str → str → str → str → generated))
    (imap_ok : bool) (inbox : list message) (smtp_ok : bool) : world :=
  {| credentials := env_set env (lit "EMAIL_ADDRESS") && env_set env (lit "EMAIL_PASSWORD");
     imap_up := imap_ok;
     unseen := inbox;
     gemini_client := (λ client, client (GEMINI_MODEL env)) <$> init_gemini_client env Client;
     smtp_up := smtp_ok;
     trace := [] |}.

(** The same world with another state of the SMTP server. *)
Definition set_smtp (b : bool) (w : world) : world :=
  {| credentials := credentials w; imap_up := imap_up w; unseen := unseen w;
     gemini_client := gemini_client w; smtp_up := b; trace := trace w |}.

(** A message whose payload cannot be decoded, and a response whose
    chosen draft is [null]. *)
Definition undecodable : message :=
  {| from_header := Some (lit "Bob <bob@example.com>");
     subject_header := Some (lit "ARIMA or LSTM?");
     body_content := Single None |}.


(** An environment with the mail credentials and nothing else, and one
    whose password is the empty string. *)
Definition mail_only_env : gmap str str :=
  <[lit "EMAIL_ADDRESS" := lit "me@example.com"]>
    (<[lit "EMAIL_PASSWORD" := lit "secret"]> ∅).

Definition empty_password_env : gmap str str :=
  <[lit "EMAIL_ADDRESS" := lit "me@example.com"]>
    (<[lit "EMAIL_PASSWORD" := []]>
       (<[lit "GEMINI_API_KEY" := lit "key"]> ∅)).

(** A constructor that never raises, for a service that answers every
    prompt with [text]. *)
Definition service (text : str) : str → option (str → str → str → str → generated) :=
  λ _, Some (λ _ _ _ _, GenText text).

(** A message whose From header has the two raw bytes of a UTF-8
    o-umlaut in it. *)
Definition raw_sender : message :=
  {| from_header := Some (lit "B" ++ [56515%N; 56502%N] ++ lit "b <bob@example.com>");
     subject_header := Some (lit "ARIMA or LSTM?");
     body_content := Single (Some (lit "Which model should I use?")) |}.

(** * Properties of the string operations *)

Lemma startswith_prefix (s p : str) : startswith s p = true ↔ p `prefix_of` s.
Proof.
  revert s; induction p as [|a p IH]; intros s.
  - split; [intros _; apply prefix_nil | by destruct s].
  - destruct s as [|b s]; simpl.
    + split; [done | intros H; by apply prefix_nil_inv in H].
    + rewrite andb_true_iff, N.eqb_eq, IH. split.
      * intros [-> H]. by apply prefix_cons.
      * intros H. split; [by apply prefix_cons_inv_1 in H | by apply prefix_cons_inv_2 in H].
Qed.

Lemma startswith_any_prefix (s : str) (ps : list str) :
  startswith_any s ps = true ↔ ∃ p, p ∈ ps ∧ p `prefix_of` s.
Proof.
  unfold startswith_any. rewrite existsb_exists. split.
  - intros (p & Hin & Hp). exists p. split; [by apply list_elem_of_In | by apply startswith_prefix].
  - intros (p & Hin & Hp). exists p. split; [by apply list_elem_of_In | by apply startswith_prefix].
Qed.

Lemma lower_app (a b : str) : lower (a ++ b) = lower a ++ lower b.
Proof. unfold lower. apply bind_app. Qed.

(** [lstrip] drops a run of white space and stops at the first other
    character. *)
Lemma lstrip_split (s : str) :
  ∃ ws, s = ws ++ lstrip s ∧ Forall (λ c, isspace c = true) ws.
Proof.
  induction s as [|c r (ws & Hr & Hws)]; simpl.
  - by exists [].
  - destruct (isspace c) eqn:Hc.
    + exists (c :: ws). split; [simpl; congruence | by constructor].
    + by exists [].
Qed.

Lemma lstrip_head (s r : str) c : lstrip s = c :: r → isspace c = false.
Proof.
  induction s as [|x s IH]; simpl; [done|].
  destruct (isspace x) eqn:Hx; [done|]. by intros [= <- _].
Qed.

Lemma lstrip_fixed (s : str) :
  (∀ c r, s = c :: r → isspace c = false) → lstrip s = s.
Proof.
  destruct s as [|c r]; simpl; [done|]. intros H. by rewrite (H c r eq_refl).
Qed.

Lemma lstrip_idem (s : str) : lstrip (lstrip s) = lstrip s.
Proof. apply lstrip_fixed. intros c r. apply lstrip_head. Qed.

Lemma rstrip_split (s : str) :
  ∃ ws, s = rstrip s ++ ws ∧ Forall (λ c, isspace c = true) ws.
Proof.
  unfold rstrip. destruct (lstrip_split (reverse s)) as (ws & Hs & Hws).
  exists (reverse ws). split.
  - rewrite <- reverse_app, <- Hs. by rewrite reverse_involutive.
  - by apply Forall_reverse.
Qed.

Lemma rstrip_idem (s : str) : rstrip (rstrip s) = rstrip s.
Proof. unfold rstrip. by rewrite reverse_involutive, lstrip_idem. Qed.

Lemma strip_split (s : str) : ∃ l r, s = l ++ strip s ++ r.
Proof.
  unfold strip. destruct (lstrip_split s) as (l & Hl & _).
  destruct (rstrip_split (lstrip s)) as (r & Hr & _).
  exists l, r. by rewrite <- Hr.
Qed.

Lemma strip_idem (s : str) : strip (strip s) = strip s.
Proof.
  unfold strip. rewrite (lstrip_fixed (rstrip (lstrip s))); [apply rstrip_idem|].
  intros c r Hc. destruct (rstrip_split (lstrip s)) as (ws & Hs & _).
  rewrite Hc in Hs. by apply lstrip_head in Hs.
Qed.

(** * Properties of the tag pattern *)

Lemma gt_split (r : str) :
  r = until_gt r ++ from_gt r ∧ (GT ∉ until_gt r) ∧
  (from_gt r = [] ∨ ∃ t, from_gt r = GT :: t).
Proof.
  induction r as [|c r (Hr & Hn & Hf)]; simpl.
  - split; [done|]. split; [apply not_elem_of_nil | by left].
  - destruct (c =? GT)%N eqn:Hc.
    + apply N.eqb_eq in Hc as ->. split; [done|]. split; [apply not_elem_of_nil | right; eauto].
    + apply N.eqb_neq in Hc. split; [simpl; congruence|]. split; [|done].
      rewrite not_elem_of_cons. split; [congruence | done].
Qed.

Lemma gt_split_unique (g rest : str) :
  GT ∉ g → until_gt (g ++ GT :: rest) = g ∧ from_gt (g ++ GT :: rest) = GT :: rest.
Proof.
  induction g as [|c g IH]; simpl; intros Hn.
  - done.
  - apply not_elem_of_cons in Hn as [Hc Hg].
    destruct (c =? GT)%N eqn:E; [apply N.eqb_eq in E; congruence|].
    destruct (IH Hg) as [-> ->]. done.
Qed.

Lemma from_gt_nil (r : str) : from_gt r = [] ↔ GT ∉ r.
Proof.
  induction r as [|c r IH]; simpl.
  - split; [intros _; apply not_elem_of_nil | done].
  - destruct (c =? GT)%N eqn:E.
    + apply N.eqb_eq in E as ->. split; [done|]. intros H. exfalso. apply H. by left.
    + apply N.eqb_neq in E. rewrite IH, not_elem_of_cons.
      split; [intros H; split; [congruence | done] | by intros [_ H]].
Qed.

Lemma match_tag_Some (s g rest : str) :
  match_tag s = Some (g, rest) ↔ s = LT :: g ++ GT :: rest ∧ g ≠ [] ∧ GT ∉ g.
Proof.
  split.
  - destruct s as [|c [|d r]]; simpl; try done.
    destruct (c =? LT)%N eqn:Hc; simpl; [|done].
    destruct (d =? GT)%N eqn:Hd; simpl; [done|].
    apply N.eqb_eq in Hc as ->. apply N.eqb_neq in Hd.
    destruct (gt_split r) as (Hr & Hn & Hf).
    destruct (from_gt r) as [|x t] eqn:E; [done|].
    intros [= <- <-]. destruct Hf as [|[t' [= -> ->]]]; [done|].
    split; [simpl; congruence|]. split; [done|].
    rewrite not_elem_of_cons. split; [congruence | done].
  - intros (-> & Hne & Hn). destruct g as [|d g]; [done|].
    apply not_elem_of_cons in Hn as [Hd Hg]. simpl.
    destruct (d =? GT)%N eqn:E; [apply N.eqb_eq in E; congruence|]. simpl.
    destruct (gt_split_unique g rest Hg) as [-> ->]. done.
Qed.

Lemma match_tag_None (c : N) (r : str) :
  match_tag (c :: r) = None →
  c ≠ LT ∨ r = [] ∨ (∃ r', r = GT :: r') ∨ GT ∉ r.
Proof.
  destruct r as [|d r]; simpl; [by right; left|].
  destruct (c =? LT)%N eqn:Hc; simpl; [|apply N.eqb_neq in Hc; by left].
  destruct (d =? GT)%N eqn:Hd; simpl.
  - apply N.eqb_eq in Hd as ->. intros _. right; right; left. eauto.
  - apply N.eqb_neq in Hd. destruct (from_gt r) as [|x t] eqn:E; [|done].
    intros _. right; right; right. apply from_gt_nil in E.
    rewrite not_elem_of_cons. split; [congruence | done].
Qed.

(** The defining equations of [sub_tags]. *)
Lemma sub_tags_match (c : N) (r g rest : str) :
  match_tag (c :: r) = Some (g, rest) → sub_tags (c :: r) = sub_tags rest.
Proof.
  intros E. simp sub_tags.
  destruct (inspect (match_tag (c :: r))) as [[[g' rest']|] H]; simp sub_tags; congruence.
Qed.

Lemma sub_tags_keep (c : N) (r : str) :
  match_tag (c :: r) = None → sub_tags (c :: r) = c :: sub_tags r.
Proof.
  intros E. simp sub_tags.
  destruct (inspect (match_tag (c :: r))) as [[[g' rest']|] H]; simp sub_tags; congruence.
Qed.

(** Induction along the run of [sub_tags]. *)
Lemma sub_tags_ind (P : str → str → Prop) :
  P [] [] →
  (∀ c r g rest, match_tag (c :: r) = Some (g, rest) →
     P rest (sub_tags rest) → P (c :: r) (sub_tags rest)) →
  (∀ c r, match_tag (c :: r) = None →
     P r (sub_tags r) → P (c :: r) (c :: sub_tags r)) →
  ∀ s, P s (sub_tags s).
Proof.
  intros Hnil Hmatch Hkeep s.
  remember (length s) as n eqn:Hn. revert s Hn.
  induction n as [n IH] using lt_wf_ind. intros [|c r] Hn.
  - by simp sub_tags.
  - destruct (match_tag (c :: r)) as [[g rest]|] eqn:E.
    + rewrite (sub_tags_match _ _ _ _ E). apply (Hmatch _ _ g); [done|].
      apply (IH (length rest)); [|done].
      apply match_tag_Some in E as (Hs & _ & _). rewrite Hn, Hs. simpl.
      rewrite length_app. simpl. lia.
    + rewrite (sub_tags_keep _ _ E). apply Hkeep; [done|].
      apply (IH (length r)); [|done]. rewrite Hn. simpl. lia.
Qed.

Lemma sub_tags_elem (x : N) (s : str) : x ∈ sub_tags s → x ∈ s.
Proof.
  apply (sub_tags_ind (λ s t, x ∈ t → x ∈ s)); clear s.
  - done.
  - intros c r g rest E IH Hx. apply match_tag_Some in E as (-> & _ & _).
    right. apply elem_of_app. right. right. by apply IH.
  - intros c r _ IH [->|Hx]%elem_of_cons; [by left | right; by apply IH].
Qed.

Lemma has_tag_cons (c : N) (s : str) :
  has_tag (c :: s) →
  (c = LT ∧ ∃ body post, s = body ++ GT :: post ∧ body ≠ [] ∧ GT ∉ body)
  ∨ has_tag s.
Proof.
  intros ([|x pre] & body & post & Hs & Hne & Hn); simpl in Hs.
  - injection Hs as -> ->. left. split; [done|]. by exists body, post.
  - injection Hs as -> ->. right. by exists pre, body, post.
Qed.

Lemma has_tag_infix (l m r : str) : has_tag m → has_tag (l ++ m ++ r).
Proof.
  intros (pre & body & post & -> & Hne & Hn).
  exists (l ++ pre), body, (post ++ r). split; [|done].
  repeat (rewrite <- app_assoc; simpl). done.
Qed.

Lemma has_tag_skip (p s : str) : LT ∉ p → has_tag (p ++ s) → has_tag s.
Proof.
  induction p as [|a p IH]; simpl; [done|].
  intros [Ha Hp]%not_elem_of_cons [[-> _]|H]%has_tag_cons; [done | by apply IH].
Qed.

(** What [re.sub] returns has no tag left. *)
Lemma sub_tags_no_tag (s : str) : ¬ has_tag (sub_tags s).
Proof.
  apply (sub_tags_ind (λ _ t, ¬ has_tag t)); clear s.
  - intros (pre & body & post & Hs & _). by destruct pre.
  - done.
  - intros c r E IH [[-> (body & post & Hs & Hne & Hn)]|H]%has_tag_cons; [|done].
    assert (GT ∈ r) as Hgt.
    { apply sub_tags_elem. rewrite Hs. apply elem_of_app. right. by left. }
    destruct (match_tag_None _ _ E) as [?|[->|[[r' ->]|?]]]; try done.
    + by apply not_elem_of_nil in Hgt.
    + rewrite sub_tags_keep in Hs by (by destruct r').
      destruct body as [|b body]; [done|]. injection Hs as <- _.
      apply Hn. by left.
Qed.

(** A text without tags is left as it is. *)
Lemma sub_tags_fixed (s : str) : ¬ has_tag s → sub_tags s = s.
Proof.
  apply (sub_tags_ind (λ s t, ¬ has_tag s → t = s)); clear s.
  - done.
  - intros c r g rest E _ H. exfalso. apply H.
    apply match_tag_Some in E as (-> & Hne & Hn). by exists [], g, rest.
  - intros c r _ IH H. f_equal. apply IH. intros Hr. apply H.
    by apply (has_tag_infix [c] r []) in Hr; rewrite app_nil_r in Hr.
Qed.

Lemma sanitize_no_tag (s : str) : ¬ has_tag (sanitize s).
Proof.
  unfold sanitize. intros H. apply (sub_tags_no_tag s).
  destruct (strip_split (sub_tags s)) as (l & r & Hs). rewrite Hs.
  by apply has_tag_infix.
Qed.

Lemma sanitize_idem (s : str) : sanitize (sanitize s) = sanitize s.
Proof.
  unfold sanitize at 1. rewrite sub_tags_fixed by apply sanitize_no_tag.
  unfold sanitize. apply strip_idem.
Qed.

(** * Reply selection *)

Lemma choose_draft_field (d : gmap str json) :
  choose_draft d = dict_get d (chosen_field d) (JStr SAFE_DEFAULT_REPLY).
Proof.
  unfold choose_draft, chosen_field.
  destruct (truthy (dict_get d (lit "is_technical") (JBool false)));
    by destruct (truthy (dict_get d (lit "request_meeting") (JBool false))).
Qed.

Lemma lookup_truthy (d : gmap str json) (k : str) (v : json) :
  d !! k = Some v → truthy (JObj d) = true.
Proof.
  intros H. simpl. apply negb_true_iff, Nat.eqb_neq. intros Hsz.
  apply map_size_empty_iff in Hsz. subst d. by rewrite lookup_empty in H.
Qed.

(** The safe default goes through sanitation and greeting normalisation
    unchanged. *)
Lemma safe_default_kept : greet (sanitize SAFE_DEFAULT_REPLY) = SAFE_DEFAULT_REPLY.
Proof. reflexivity. Qed.


Lemma select_reply_dict (d : gmap str json) (v : json) :
  d !! chosen_field d = Some v →
  select_reply (Some (JObj d)) =
  match v with JStr s => Ok (greet (sanitize s)) | _ => Raise TypeError end.
Proof.
  intros H. unfold select_reply, draft_of.
  rewrite (lookup_truthy _ _ _ H). simpl negb. cbv iota.
  rewrite choose_draft_field. unfold dict_get. rewrite H. done.
Qed.

Lemma select_reply_absent (d : gmap str json) :
  d !! chosen_field d = None → select_reply (Some (JObj d)) = Ok SAFE_DEFAULT_REPLY.
Proof.
  intros H. unfold select_reply, draft_of.
  destruct (truthy (JObj d)); [|done]. simpl negb. cbv iota.
  rewrite choose_draft_field. unfold dict_get. rewrite H. done.
Qed.

(** Whatever comes back from the selection is a sanitised text with
    its greeting. *)
Lemma select_reply_Ok (ai_output : option json) (r : str) :
  select_reply ai_output = Ok r → ∃ s, r = greet (sanitize s).
Proof.
  unfold select_reply. destruct (draft_of ai_output) as [[| | | |s| |]|e]; simpl; try done.
  intros [= <-]. by exists s.
Qed.

Lemma greet_greeting (r : str) :
  greet r ≠ [] ∧ ∃ g, g ∈ GREETINGS ∧ g `prefix_of` lower (greet r).
Proof.
  unfold greet. destruct (startswith_any (lower r) GREETINGS) eqn:E; cbn [negb].
  - apply startswith_any_prefix in E as (g & Hg & Hp). split; [|by exists g].
    intros ->. apply prefix_nil_inv in Hp. subst g.
    unfold GREETINGS in Hg. by repeat (apply elem_of_cons in Hg as [?|Hg]; [done|]); apply elem_of_nil in Hg.
  - split; [done|]. exists (lit "hello"). split; [by left|].
    rewrite lower_app. by exists (lit "," ++ lower ([NL; NL] ++ r)).
Qed.

(** A text that begins with a greeting is kept; any other text gets
    the greeting line before it. *)
Lemma greet_kept (r : str) :
  startswith_any (lower r) GREETINGS = true → greet r = r.
Proof. intros H. unfold greet. by rewrite H. Qed.

Lemma greet_added (r : str) :
  startswith_any (lower r) GREETINGS = false → greet r = lit "Hello," ++ [NL; NL] ++ r.
Proof. intros H. unfold greet. by rewrite H. Qed.

Lemma greet_no_tag (r : str) : ¬ has_tag r → ¬ has_tag (greet r).
Proof.
  unfold greet. destruct (negb _); [|done]. intros H Ht. apply H.
  rewrite app_assoc in Ht. apply has_tag_skip in Ht; [done|].
  vm_compute. by repeat (intros [[=]|H']%elem_of_cons; revert H'); intros ?%elem_of_nil.
Qed.

(** * The brace pattern *)

Lemma upto_last_rbrace_None (r : str) : upto_last_rbrace r = None ↔ RBRACE ∉ r.
Proof.
  induction r as [|c r IH]; simpl.
  - split; [intros _; apply not_elem_of_nil | done].
  - rewrite not_elem_of_cons. destruct (upto_last_rbrace r) as [t|].
    + split; [done|]. intros [_ H]. by apply IH in H.
    + destruct (c =? RBRACE)%N eqn:E.
      * apply N.eqb_eq in E as ->. split; [done | by intros [? _]].
      * apply N.eqb_neq in E. split; [intros _; split; [congruence | by apply IH] | done].
Qed.

(** The greedy match ends at the last '}'. *)
Lemma upto_last_rbrace_app (mid post : str) :
  RBRACE ∉ post → upto_last_rbrace (mid ++ RBRACE :: post) = Some (mid ++ [RBRACE]).
Proof.
  intros Hp. induction mid as [|c mid IH]; simpl.
  - apply upto_last_rbrace_None in Hp. by rewrite Hp.
  - by rewrite IH.
Qed.

Lemma match_braces_Some (s m : str) :
  match_braces s = Some m → ∃ r, s = LBRACE :: r ∧ RBRACE ∈ r.
Proof.
  destruct s as [|c r]; simpl; [done|].
  destruct (c =? LBRACE)%N eqn:E; [|done]. apply N.eqb_eq in E as ->.
  destruct (upto_last_rbrace r) as [t|] eqn:Ht; [|done]. intros _.
  exists r. split; [done|].
  destruct (decide (RBRACE ∈ r)) as [|Hn]; [done|].
  apply upto_last_rbrace_None in Hn. congruence.
Qed.

(** The leftmost match starts at the first '{' and ends at the last '}'. *)
Lemma search_braces_span (pre mid post : str) :
  LBRACE ∉ pre → RBRACE ∉ post →
  search_braces (pre ++ LBRACE :: mid ++ RBRACE :: post) = Some (LBRACE :: mid ++ [RBRACE]).
Proof.
  intros Hpre Hpost. induction pre as [|c pre IH]; simpl.
  - by rewrite upto_last_rbrace_app.
  - apply not_elem_of_cons in Hpre as [Hc Hpre].
    destruct (c =? LBRACE)%N eqn:E; [apply N.eqb_eq in E; congruence|].
    by apply IH.
Qed.

Lemma search_braces_None (s : str) :
  search_braces s = None ↔ ∀ pre mid post, s ≠ pre ++ LBRACE :: mid ++ RBRACE :: post.
Proof.
  split.
  - induction s as [|c s IH]; intros H pre mid post Hs.
    + by destruct pre.
    + simpl in H. destruct (c =? LBRACE)%N eqn:E.
      * destruct (upto_last_rbrace s) as [t|] eqn:Ht; [done|].
        apply upto_last_rbrace_None in Ht. simpl in H.
        destruct pre as [|x pre]; simpl in Hs; injection Hs as -> ->.
        -- apply Ht. apply elem_of_app. right. by left.
        -- apply Ht. apply elem_of_app. right. right. apply elem_of_app. right. by left.
      * apply N.eqb_neq in E. destruct pre as [|x pre]; simpl in Hs; injection Hs as -> ->.
        -- done.
        -- by apply (IH H pre mid post).
  - intros H. destruct (search_braces s) as [m|] eqn:E; [exfalso|done].
    induction s as [|c s IH]; simpl in E; [done|].
    destruct (c =? LBRACE)%N eqn:Ec.
    + apply N.eqb_eq in Ec as ->.
      destruct (upto_last_rbrace s) as [t|] eqn:Ht.
      * assert (RBRACE ∈ s) as Hin.
        { destruct (decide (RBRACE ∈ s)) as [|Hn]; [done|].
          apply upto_last_rbrace_None in Hn. congruence. }
        apply list_elem_of_split in Hin as (mid & post & ->).
        by apply (H [] mid post).
      * simpl in E. apply IH; [|done]. intros pre mid post ->.
        by apply (H (LBRACE :: pre) mid post).
    + apply IH; [|done]. intros pre mid post ->. by apply (H (c :: pre) mid post).
Qed.

Lemma search_braces_head (s m : str) :
  search_braces s = Some m → ∃ r, m = LBRACE :: r.
Proof.
  induction s as [|c s IH]; simpl; [done|].
  destruct (c =? LBRACE)%N eqn:E; [|done].
  apply N.eqb_eq in E as ->.
  destruct (upto_last_rbrace s) as [t|]; simpl; [|done].
  intros [= <-]. by eexists.
Qed.

(** * The collaborators *)

Lemma search_tag_nonempty (s g : str) : search_tag s = Some g → g ≠ [].
Proof.
  induction s as [|c s IH]; [done|]. cbn [search_tag].
  destruct (match_tag (c :: s)) as [[g' rest]|] eqn:E; [|done].
  intros [= ->]. by apply match_tag_Some in E as (_ & ? & _).
Qed.

Lemma has_surrogates_false (s : str) :
  has_surrogates s = false ↔ Forall (λ c, is_surrogate c = false) s.
Proof.
  unfold has_surrogates. induction s as [|c s IH]; simpl; [done|].
  rewrite orb_false_iff, IH. split; [intros [? ?]; by constructor | by inversion 1].
Qed.

(** The sender is the empty string exactly when the From header is
    absent or empty. *)
Lemma sender_of_empty (m : message) :
  sender_of m = Some [] ↔ from_header m = None ∨ from_header m = Some [].
Proof.
  unfold sender_of, get_header. destruct (from_header m) as [h|]; [|by split; [left|]].
  destruct (has_surrogates h) eqn:Hh.
  - split; [done|]. intros [|[= ->]]; done.
  - destruct (search_tag h) as [g|] eqn:E.
    + split.
      * intros [= ->]. by apply search_tag_nonempty in E.
      * intros [|[= ->]]; done.
    + split; [intros [= ->]; by right | by intros [|[= ->]]].
Qed.

Lemma fetch_cases (w : world) :
  _fetch_latest_unread_email w = (w, None) ∨
  ∃ older m,
    unseen w = older ++ [m] ∧ credentials w = true ∧ imap_up w = true ∧
    _fetch_latest_unread_email w =
      (record_event (MarkedSeen m) (set_unseen older w), read_message m).
Proof.
  unfold _fetch_latest_unread_email, read_message.
  destruct (credentials w); [|by left]. destruct (imap_up w); [|by left]. simpl.
  destruct (reverse (unseen w)) as [|latest older] eqn:E; [by left|].
  right. exists (reverse older), latest.
  assert (unseen w = reverse older ++ [latest]) as Hu.
  { rewrite <- (reverse_involutive (unseen w)), E. apply reverse_cons. }
  repeat split; [done|]. destruct (sender_of latest); [|done]. by destruct (body_of latest).
Qed.

Lemma run_ai_agent_world (f s b : str) (w : world) :
  (_run_ai_agent f s b w).1 = record_event (Classified f s b) w.
Proof.
  unfold _run_ai_agent. simpl.
  destruct (gemini_client w) as [g|]; [|done].
  destruct (g f s b) as [|text]; [done|]. by destruct (search_braces (strip text)).
Qed.

Lemma sends_snoc (t : list event) (e : event) :
  sends (t ++ [e]) = sends t + (if is_send e then 1 else 0).
Proof.
  unfold sends. rewrite List.filter_app, length_app. simpl. by destruct (is_send e).
Qed.

Lemma classifications_snoc (t : list event) (e : event) :
  classifications (t ++ [e]) = classifications t + (if is_classification e then 1 else 0).
Proof.
  unfold classifications. rewrite List.filter_app, length_app. simpl.
  by destruct (is_classification e).
Qed.

(** Fetching records nothing but the marking of the message. *)
Lemma fetch_trace (w w1 : world) fetched :
  _fetch_latest_unread_email w = (w1, fetched) →
  sends (trace w1) = sends (trace w) ∧
  classifications (trace w1) = classifications (trace w).
Proof.
  destruct (fetch_cases w) as [H|(older & m & _ & _ & _ & H)]; rewrite H; intros [= <- _].
  - done.
  - simpl. rewrite sends_snoc, classifications_snoc. simpl. lia.
Qed.

(** The run, step by step. *)
Lemma workflow_run (w : world) :
  main_agent_workflow w =
  match _fetch_latest_unread_email w with
  | (w1, None) => (w1, Ok ())
  | (w1, Some (from_email, subject, body)) =>
      if decide (from_email = []) then (w1, Ok ())
      else
        let w2 := record_event (Classified from_email subject body) w1 in
        match select_reply (_run_ai_agent from_email subject body w1).2 with
        | Raise e => (w2, Raise e)
        | Ok reply =>
            (record_event (SendAttempt from_email (lit "Re: " ++ subject) reply) w2, Ok ())
        end
  end.
Proof.
  unfold main_agent_workflow.
  destruct (_fetch_latest_unread_email w) as [w1 [[[from_email subject] body]|]]; [|done].
  destruct from_email as [|c from_email]; [done|]. simpl Nat.eqb. cbv iota.
  rewrite decide_False by done.
  pose proof (run_ai_agent_world (c :: from_email) subject body w1) as Hw.
  destruct (_run_ai_agent (c :: from_email) subject body w1) as [w2 ai_output].
  simpl in Hw. subst w2. simpl snd.
  destruct (select_reply ai_output) as [reply|e]; [|done].
  unfold _send_smtp_email. by destruct (negb _).
Qed.

(** Every reply the workflow sends comes from the reply selection: what
    holds of the selection's replies holds of what is sent. *)
Lemma sent_reply_is_selected (w : world) (to_email subject content : str) :
  SendAttempt to_email subject content ∈ trace (main_agent_workflow w).1 →
  SendAttempt to_email subject content ∈ trace w ∨
  ∃ ai_output, select_reply ai_output = Ok content.
Proof.
  rewrite workflow_run.
  destruct (fetch_cases w) as [H|(older & m & _ & _ & _ & H)]; rewrite H.
  { by left. }
  destruct (read_message m) as [[[f subj] body]|]; simpl.
  - destruct (decide (f = [])); simpl.
    + intros [?|[[=]|[]%elem_of_nil]%elem_of_cons]%elem_of_app. by left.
    + destruct (select_reply _) as [reply|e] eqn:E; simpl.
      * intros [[[?|[[=]|[]%elem_of_nil]%elem_of_cons]%elem_of_app
                |[[=]|[]%elem_of_nil]%elem_of_cons]%elem_of_app
               |[[= -> -> ->]|[]%elem_of_nil]%elem_of_cons]%elem_of_app.
        -- by left.
        -- right. eauto.
      * intros [[?|[[=]|[]%elem_of_nil]%elem_of_cons]%elem_of_app
               |[[=]|[]%elem_of_nil]%elem_of_cons]%elem_of_app. by left.
  - intros [?|[[=]|[]%elem_of_nil]%elem_of_cons]%elem_of_app. by left.
Qed.

(** * The decoder and its fuel *)

Lemma skip_ws_length (s : str) : length (skip_ws s) ≤ length s.
Proof.
  induction s as [|c r IH]; simpl; [done|].
  destruct ((c =? 32) || (c =? 9) || (c =? 10) || (c =? 13))%N; simpl; lia.
Qed.

Lemma strip_prefix_length (w s t : str) :
  strip_prefix w s = Some t → length t ≤ length s.
Proof.
  revert s. induction w as [|a w IH]; intros [|b s]; simpl; try done.
  - by intros [= <-].
  - by intros [= <-].
  - destruct (a =? b)%N; [|done]. intros H%IH. lia.
Qed.

Lemma span_digits_length (s : str) : length (span_digits s).2 ≤ length s.
Proof.
  induction s as [|c r IH]; simpl; [done|].
  destruct (is_digit c); simpl; [|lia].
  destruct (span_digits r) as [ds t]. simpl in *. lia.
Qed.

Lemma match_int_part_length (s ip t : str) :
  match_int_part s = Some (ip, t) → length t ≤ length s.
Proof.
  destruct s as [|c r]; simpl; [done|].
  destruct (c =? 48)%N; [intros [= _ <-]; lia|].
  destruct (is_digit c); [|done].
  pose proof (span_digits_length r). destruct (span_digits r) as [ds u].
  intros [= _ <-]. simpl in *. lia.
Qed.

Lemma match_frac_length (s : str) : length (match_frac s).2 ≤ length s.
Proof.
  destruct s as [|c r]; simpl; [done|].
  destruct (c =? 46)%N; simpl; [|lia].
  pose proof (span_digits_length r). destruct (span_digits r) as [[|d ds] u]; simpl in *; lia.
Qed.

Lemma match_sign_length (s : str) : length (match_sign s).2 ≤ length s.
Proof.
  destruct s as [|c r]; simpl; [done|].
  destruct (c =? 45)%N; simpl; [lia|]. destruct (c =? 43)%N; simpl; lia.
Qed.

Lemma match_exp_length (s : str) : length (match_exp s).2 ≤ length s.
Proof.
  destruct s as [|c r]; simpl; [done|].
  destruct ((c =? 101) || (c =? 69))%N; simpl; [|lia].
  pose proof (match_sign_length r). destruct (match_sign r) as [neg r1].
  pose proof (span_digits_length r1). destruct (span_digits r1) as [[|d ds] u]; simpl in *; lia.
Qed.

Lemma match_number_length (s : str) v (t : str) :
  match_number s = Some (v, t) → length t ≤ length s.
Proof.
  unfold match_number.
  assert (∃ neg s1, match s with
                    | c :: r => if (c =? 45)%N then (true, r) else (false, s)
                    | [] => (false, s)
                    end = (neg, s1) ∧ length s1 ≤ length s) as (neg & s1 & -> & H1).
  { destruct s as [|c r]; [by eexists _, _|].
    destruct (c =? 45)%N; eexists _, _; split; try done; simpl; lia. }
  destruct (match_int_part s1) as [[ip s2]|] eqn:E; simpl; [|done].
  apply match_int_part_length in E.
  pose proof (match_frac_length s2). destruct (match_frac s2) as [fr s3].
  pose proof (match_exp_length s3). destruct (match_exp s3) as [ex s4].
  simpl in *. destruct fr, ex; intros [= _ <-]; lia.
Qed.

Lemma scanstring_length (s acc k t : str) :
  scanstring s acc = Some (k, t) → length t < length s.
Proof.
  remember (length s) as n eqn:Hn. revert s acc Hn.
  induction n as [n IH] using lt_wf_ind. intros [|c r] acc Hn; simpl; [done|].
  intros H. repeat case_match; subst; try discriminate;
    match goal with
    | H : Some _ = Some _ |- _ => injection H as _ <-; simpl; lia
    | H : scanstring ?x _ = Some _ |- _ =>
        eapply (IH (length x)) in H; [|simpl; lia|reflexivity]; simpl in *; lia
    end.
Qed.

Lemma object_members_dict (fuel : nat) (s : str) (d : gmap str json) v t :
  object_members fuel s d = Some (v, t) → ∃ d', v = JObj d'.
Proof.
  revert s d. induction fuel as [|fuel IH]; intros s d; simpl; [done|].
  destruct (scanstring s []) as [[key s1]|]; simpl; [|done].
  destruct (skip_ws s1) as [|x s2]; [done|].
  destruct (x =? 58)%N; [|done].
  destruct (scan_once fuel (skip_ws s2)) as [[value s3]|]; simpl; [|done].
  destruct (skip_ws s3) as [|y s4]; [done|].
  destruct (y =? RBRACE)%N; [intros [= <- _]; by eexists|].
  destruct (y =? 44)%N; [|done].
  destruct (skip_ws s4) as [|z s5]; [done|].
  destruct (z =? 34)%N; [|done]. apply IH.
Qed.

Lemma scan_once_brace (fuel : nat) (r : str) v t :
  scan_once fuel (LBRACE :: r) = Some (v, t) → ∃ d, v = JObj d.
Proof.
  destruct fuel as [|fuel]; simpl; [done|].
  destruct (skip_ws r) as [|x u]; [done|].
  destruct (x =? RBRACE)%N; [intros [= <- _]; by eexists|].
  destruct (x =? 34)%N; [|done]. apply object_members_dict.
Qed.

(** A text that starts with '{' decodes to a dictionary or not at all. *)
Lemma json_loads_brace (r : str) (v : json) :
  json_loads (LBRACE :: r) = Some v → ∃ d, v = JObj d.
Proof.
  unfold json_loads. change (skip_ws (LBRACE :: r)) with (LBRACE :: r).
  change (startswith (LBRACE :: r) [65279%N]) with false. cbv iota.
  destruct (scan_once _ (LBRACE :: r)) as [[v' t]|] eqn:E; simpl; [|done].
  destruct (skip_ws t); [|done]. intros [= <-]. by apply scan_once_brace in E.
Qed.

Arguments strip_prefix : simpl never.
Arguments match_number : simpl never.

(** What is left after a value is no longer than the text it was read
    from. *)
Lemma scan_length (n : nat) :
  (∀ s v t, scan_once n s = Some (v, t) → length t ≤ length s) ∧
  (∀ s d v t, object_members n s d = Some (v, t) → length t ≤ length s) ∧
  (∀ s acc v t, array_items n s acc = Some (v, t) → length t ≤ length s).
Proof.
  induction n as [|n (IHs & IHo & IHa)]; [by repeat split|].
  split; [|split].
  - intros [|c r] v t; simpl; [done|].
    destruct (c =? 34)%N.
    { destruct (scanstring r []) as [[k u]|] eqn:E; simpl; [|done].
      intros [= _ <-]. apply scanstring_length in E. lia. }
    destruct (c =? LBRACE)%N.
    { pose proof (skip_ws_length r). destruct (skip_ws r) as [|x u]; [done|].
      destruct (x =? RBRACE)%N; [intros [= _ <-]; simpl in *; lia|].
      destruct (x =? 34)%N; [|done]. intros H'%IHo. simpl in *. lia. }
    destruct (c =? 91)%N.
    { pose proof (skip_ws_length r). destruct (skip_ws r) as [|x u]; [done|].
      destruct (x =? 93)%N; [intros [= _ <-]; simpl in *; lia|].
      intros H'%IHa. simpl in *. lia. }
    intros H. change (S (length r)) with (length (c :: r)).
    repeat case_match; try discriminate; inversion H; subst; clear H;
      eauto using strip_prefix_length, match_number_length.
  - intros s d v t. simpl.
    destruct (scanstring s []) as [[key s1]|] eqn:E; simpl; [|done].
    apply scanstring_length in E.
    pose proof (skip_ws_length s1). destruct (skip_ws s1) as [|x s2]; [done|].
    destruct (x =? 58)%N; [|done].
    destruct (scan_once n (skip_ws s2)) as [[value s3]|] eqn:E2; simpl; [|done].
    apply IHs in E2. pose proof (skip_ws_length s2).
    pose proof (skip_ws_length s3). destruct (skip_ws s3) as [|y s4]; [done|].
    destruct (y =? RBRACE)%N; [intros [= _ <-]; simpl in *; lia|].
    destruct (y =? 44)%N; [|done].
    pose proof (skip_ws_length s4). destruct (skip_ws s4) as [|z s5]; [done|].
    destruct (z =? 34)%N; [|done]. intros H'%IHo. simpl in *. lia.
  - intros s acc v t. simpl.
    destruct (scan_once n s) as [[value s1]|] eqn:E; simpl; [|done].
    apply IHs in E.
    pose proof (skip_ws_length s1). destruct (skip_ws s1) as [|x s2]; [done|].
    destruct (x =? 93)%N; [intros [= _ <-]; simpl in *; lia|].
    destruct (x =? 44)%N; [|done].
    pose proof (skip_ws_length s2). intros H'%IHa. simpl in *. lia.
Qed.

(** With more than twice the length of the text as fuel, the result no
    longer depends on the fuel. *)
Lemma scan_fuel (n : nat) :
  (∀ s m, 2 * length s < n → n ≤ m → scan_once m s = scan_once n s) ∧
  (∀ s d m, 2 * length s < n → n ≤ m →
     object_members m s d = object_members n s d) ∧
  (∀ s acc m, 2 * length s + 1 < n → n ≤ m →
     array_items m s acc = array_items n s acc).
Proof.
  induction n as [|n (IHs & IHo & IHa)]; [repeat split; intros; lia|].
  split; [|split].
  - intros [|c r] [|m] Hs Hm; simpl; try done; try lia.
    destruct (c =? 34)%N; [done|].
    destruct (c =? LBRACE)%N.
    { pose proof (skip_ws_length r). destruct (skip_ws r) as [|x u]; [done|].
      destruct (x =? RBRACE)%N; [done|]. destruct (x =? 34)%N; [|done].
      apply IHo; simpl in *; lia. }
    destruct (c =? 91)%N; [|done].
    pose proof (skip_ws_length r). destruct (skip_ws r) as [|x u]; [done|].
    destruct (x =? 93)%N; [done|]. apply IHa; simpl in *; lia.
  - intros s d [|m] Hs Hm; [lia|]. simpl.
    destruct (scanstring s []) as [[key s1]|] eqn:E; simpl; [|done].
    apply scanstring_length in E.
    pose proof (skip_ws_length s1). destruct (skip_ws s1) as [|x s2]; [done|].
    destruct (x =? 58)%N; [|done]. pose proof (skip_ws_length s2).
    rewrite (IHs (skip_ws s2) m) by (simpl in *; lia).
    destruct (scan_once n (skip_ws s2)) as [[value s3]|] eqn:E2; simpl; [|done].
    apply scan_length in E2.
    pose proof (skip_ws_length s3). destruct (skip_ws s3) as [|y s4]; [done|].
    destruct (y =? RBRACE)%N; [done|]. destruct (y =? 44)%N; [|done].
    pose proof (skip_ws_length s4). destruct (skip_ws s4) as [|z s5]; [done|].
    destruct (z =? 34)%N; [|done]. apply IHo; simpl in *; lia.
  - intros s acc [|m] Hs Hm; [lia|]. simpl.
    rewrite (IHs s m) by lia.
    destruct (scan_once n s) as [[value s1]|] eqn:E; simpl; [|done].
    apply scan_length in E.
    pose proof (skip_ws_length s1). destruct (skip_ws s1) as [|x s2]; [done|].
    destruct (x =? 93)%N; [done|]. destruct (x =? 44)%N; [|done].
    pose proof (skip_ws_length s2). apply IHa; simpl in *; lia.
Qed.

(** The fuel [json_loads] gives is enough: more of it changes nothing. *)
Lemma json_loads_fuel (s : str) (m : nat) :
  2 * length s < m →
  scan_once m (skip_ws s) = scan_once (S (2 * length s)) (skip_ws s).
Proof.
  intros Hm. pose proof (skip_ws_length s) as Hl.
  destruct (scan_fuel (S (2 * length s))) as (H & _ & _). apply H; lia.
Qed.

(** * The claims about reply selection and sanitation *)

(** C1, as stated, fails: in scenario C the chosen draft,
    [non_technical_reply_draft], is present and empty, and the reply is
    the bare greeting, not the safe default. *)
Lemma empty_draft_gets_bare_greeting :
  scenario_C !! chosen_field scenario_C = Some (JStr []) ∧
  truthy (JStr []) = false ∧
  select_reply (Some (JObj scenario_C)) = Ok (lit "Hello," ++ [NL; NL]) ∧
  select_reply (Some (JObj scenario_C)) ≠ Ok SAFE_DEFAULT_REPLY.
Proof.
  split; [by vm_compute|]. split; [done|]. split; [by vm_compute|].
  intros H. vm_compute in H. discriminate H.
Qed.

(** A chosen draft that is present and not a string, such as [null],
    is not replaced either: [re.sub] raises on it. *)
Lemma null_draft_raises :
  select_reply (Some (JObj (<[lit "is_technical" := JBool false]>
                              (<[lit "non_technical_reply_draft" := JNull]> ∅))))
  = Raise TypeError.
Proof. by vm_compute. Qed.

(** C1, amended: the safe default stands in for a chosen draft field that
    is absent from the classification; a chosen draft that is present
    and a string is used as it is, so an empty one gives the bare
    greeting. *)
Theorem absent_draft_falls_back (d : gmap str json) :
  (d !! chosen_field d = None →
   select_reply (Some (JObj d)) = Ok SAFE_DEFAULT_REPLY) ∧
  (∀ s, d !! chosen_field d = Some (JStr s) →
   select_reply (Some (JObj d)) = Ok (greet (sanitize s))) ∧
  (d !! chosen_field d = Some (JStr []) →
   select_reply (Some (JObj d)) = Ok (lit "Hello," ++ [NL; NL])).
Proof.
  split; [apply select_reply_absent|]. split.
  - intros s H. by rewrite (select_reply_dict _ _ H).
  - intros H. by rewrite (select_reply_dict _ _ H).
Qed.

Lemma absent_draft_falls_back_witness :
  select_reply (Some (JObj (<[lit "is_technical" := JBool true]> ∅))) = Ok SAFE_DEFAULT_REPLY
  ∧ select_reply (Some (JObj scenario_C)) = Ok (lit "Hello," ++ [NL; NL]).
Proof.
  split.
  - apply (proj1 (absent_draft_falls_back (<[lit "is_technical" := JBool true]> ∅))).
    vm_compute. reflexivity.
  - apply (proj2 (proj2 (absent_draft_falls_back scenario_C))).
    vm_compute. reflexivity.
Defined.






(** C5: every reply the selection returns is non-empty, and its
    lowercase form starts with "hello", "hi", "dear" or "thank you". *)
Theorem reply_has_greeting (ai_output : option json) (r : str) :
  select_reply ai_output = Ok r →
  r ≠ [] ∧ ∃ g, g ∈ GREETINGS ∧ g `prefix_of` lower r.
Proof. intros (s & ->)%select_reply_Ok. apply greet_greeting. Qed.

Lemma reply_has_greeting_witness :
  lit "Hello," ++ [NL; NL] ≠ [] ∧
  ∃ g, g ∈ GREETINGS ∧ g `prefix_of` lower (lit "Hello," ++ [NL; NL]).
Proof.
  apply (reply_has_greeting (Some (JObj scenario_C))). vm_compute. reflexivity.
Defined.

(** C6: no reply the selection returns contains a markup-tag-like
    substring. *)
Theorem reply_has_no_tag (ai_output : option json) (r : str) :
  select_reply ai_output = Ok r → ¬ has_tag r.
Proof. intros (s & ->)%select_reply_Ok. apply greet_no_tag, sanitize_no_tag. Qed.

Lemma reply_has_no_tag_witness :
  ¬ has_tag (lit "Hello," ++ [NL; NL] ++ lit "Let's meet Friday at 3PM.").
Proof.
  apply (reply_has_no_tag (Some (JObj scenario_A))). vm_compute. reflexivity.
Defined.

(** C7: sanitation, removing the tags and then trimming, is idempotent. *)
Theorem sanitation_idempotent (s : str) : sanitize (sanitize s) = sanitize s.
Proof. apply sanitize_idem. Qed.

(** * The claims about the workflow *)

(** C4: when the classification is absent, the reply is the safe
    default, letter for letter, and that is what is sent to the sender. *)
Theorem outage_sends_safe_default (w w1 w2 : world) (from_email subject body : str) :
  _fetch_latest_unread_email w = (w1, Some (from_email, subject, body)) →
  from_email ≠ [] →
  _run_ai_agent from_email subject body w1 = (w2, None) →
  select_reply None = Ok SAFE_DEFAULT_REPLY ∧
  main_agent_workflow w =
    (record_event (SendAttempt from_email (lit "Re: " ++ subject) SAFE_DEFAULT_REPLY) w2,
     Ok ()).
Proof.
  intros Hf Hne Ha. split; [done|].
  rewrite workflow_run, Hf. rewrite decide_False by done.
  pose proof (run_ai_agent_world from_email subject body w1) as Hw.
  rewrite Ha in *. simpl in *. by subst w2.
Qed.

Lemma outage_sends_safe_default_witness :
  select_reply None = Ok SAFE_DEFAULT_REPLY ∧
  main_agent_workflow (one_message from_bob None) =
    ({| credentials := true; imap_up := true; unseen := [];
        gemini_client := None; smtp_up := true;
        trace := [MarkedSeen from_bob;
                  Classified (lit "bob@example.com") (lit "ARIMA or LSTM?")
                    (lit "Which model should I use?");
                  SendAttempt (lit "bob@example.com") (lit "Re: ARIMA or LSTM?")
                    SAFE_DEFAULT_REPLY] |},
     Ok ()).
Proof.
  apply (outage_sends_safe_default (one_message from_bob None)
           (record_event (MarkedSeen from_bob) (set_unseen [] (one_message from_bob None)))
           (record_event (Classified (lit "bob@example.com") (lit "ARIMA or LSTM?")
                            (lit "Which model should I use?"))
              (record_event (MarkedSeen from_bob)
                 (set_unseen [] (one_message from_bob None))))
           (lit "bob@example.com") (lit "ARIMA or LSTM?")
           (lit "Which model should I use?")).
  - reflexivity.
  - discriminate.
  - reflexivity.
Defined.

(** C9, as stated, fails: a message without a From header is fetched,
    and no send attempt is made. *)
Lemma fetched_without_sender_gets_no_reply :
  (_fetch_latest_unread_email (one_message no_sender None)).2 =
    Some ([], lit "ARIMA or LSTM?", lit "Which model should I use?") ∧
  sends (trace (main_agent_workflow (one_message no_sender None)).1) = 0.
Proof. split; by vm_compute. Qed.

(** C9, amended: when the fetch yields nothing, or a message whose
    sender is the empty string, the run ends there: no classification,
    no send. When it yields a message with a sender, the message is
    classified once, and one send attempt is made, to that sender,
    whenever the reply selection returns a reply; when the selection
    raises, the run ends with that exception. *)
Theorem one_send_attempt (w w1 : world) fetched :
  _fetch_latest_unread_email w = (w1, fetched) →
  match fetched with
  | None => main_agent_workflow w = (w1, Ok ())
  | Some (from_email, subject, body) =>
      if decide (from_email = []) then main_agent_workflow w = (w1, Ok ())
      else
        ∃ w3,
          trace w3 = trace w1 ++ [Classified from_email subject body] ∧
          classifications (trace w3) = S (classifications (trace w)) ∧
          match select_reply (_run_ai_agent from_email subject body w1).2 with
          | Ok reply =>
              ∃ w4,
                main_agent_workflow w = (w4, Ok ()) ∧
                trace w4 = trace w3 ++ [SendAttempt from_email (lit "Re: " ++ subject) reply] ∧
                sends (trace w4) = S (sends (trace w))
          | Raise e =>
              main_agent_workflow w = (w3, Raise e) ∧
              sends (trace w3) = sends (trace w)
          end
  end.
Proof.
  intros Hf. rewrite workflow_run, Hf. destruct (fetch_trace _ _ _ Hf) as [Hs Hc].
  destruct fetched as [[[from_email subject] body]|]; [|done].
  destruct (decide (from_email = [])); [done|].
  exists (record_event (Classified from_email subject body) w1).
  split; [done|]. split; [simpl; rewrite classifications_snoc, Hc; simpl; lia|].
  destruct (select_reply _) as [reply|e].
  - eexists. split; [done|]. split; [done|].
    simpl. rewrite !sends_snoc, Hs. simpl. lia.
  - split; [done|]. simpl. rewrite sends_snoc, Hs. simpl. lia.
Qed.

(** The selection returns a reply for an absent classification and for
    a dictionary whose chosen draft is absent or a string. *)
Lemma select_reply_returns (ai_output : option json) :
  ai_output = None ∨
  (∃ d, ai_output = Some (JObj d) ∧
        (d !! chosen_field d = None ∨ ∃ s, d !! chosen_field d = Some (JStr s))) →
  ∃ r, select_reply ai_output = Ok r.
Proof.
  intros [->|(d & -> & [H|[s H]])].
  - by eexists.
  - eexists. by apply select_reply_absent.
  - eexists. by rewrite (select_reply_dict _ _ H).
Qed.

(** C10: a fetched message whose sender is the empty string ends the
    run as no message does: nothing is classified and nothing is sent.
    The message was then the last unseen one, it has been marked seen,
    and its From header is absent or empty. *)
Theorem empty_sender_returns_early (w w1 : world) (subject body : str) :
  _fetch_latest_unread_email w = (w1, Some ([], subject, body)) →
  main_agent_workflow w = (w1, Ok ()) ∧
  sends (trace w1) = sends (trace w) ∧
  classifications (trace w1) = classifications (trace w) ∧
  ∃ older m,
    unseen w = older ++ [m] ∧ unseen w1 = older ∧
    trace w1 = trace w ++ [MarkedSeen m] ∧
    (from_header m = None ∨ from_header m = Some []).
Proof.
  intros Hf. split; [by rewrite workflow_run, Hf|].
  destruct (fetch_trace _ _ _ Hf) as [Hs Hc]. split; [done|]. split; [done|].
  destruct (fetch_cases w) as [H|(older & m & Hu & _ & _ & H)]; rewrite H in Hf.
  - done.
  - injection Hf as <- Hb. exists older, m. split; [done|]. split; [done|].
    split; [done|]. apply sender_of_empty. unfold read_message in Hb.
    destruct (sender_of m) as [f|]; [|done].
    destruct (body_of m); [|done]. by injection Hb as -> _ _.
Qed.

Lemma empty_sender_returns_early_witness :
  main_agent_workflow (one_message empty_sender None) =
    ({| credentials := true; imap_up := true; unseen := [];
        gemini_client := None; smtp_up := true;
        trace := [MarkedSeen empty_sender] |}, Ok ()).
Proof.
  apply (empty_sender_returns_early (one_message empty_sender None) _
           (lit "No Subject") (lit "Hi")).
  reflexivity.
Defined.

(** * The claims about the classifier *)

(** C2, as stated, fails: the response has one of the five fields only,
    and the classifier returns the partial record. *)
Lemma partial_record_is_returned :
  (_run_ai_agent (lit "bob@example.com") (lit "ARIMA or LSTM?")
     (lit "Which model should I use?")
     (one_message from_bob (answering partial_response))).2
  = Some (JObj (<[lit "is_technical" := JBool true]> ∅)) ∧
  (<[lit "is_technical" := JBool true]> ∅ : gmap str json) !! lit "simple_reply_draft" = None.
Proof. split; by vm_compute. Qed.

(** C2, amended: the classifier returns the value it decodes, as it is,
    with the fields it happens to have. It returns [None] only when
    there is no client, when the call raises, when no text between
    braces is found and when decoding fails. What it returns is a
    dictionary. *)
Theorem classifier_returns_what_it_decodes (w : world) (f s b : str) (v : json) :
  ((_run_ai_agent f s b w).2 = Some v ↔
   ∃ g text m,
     gemini_client w = Some g ∧ g f s b = GenText text ∧
     search_braces (strip text) = Some m ∧ json_loads m = Some v) ∧
  ((_run_ai_agent f s b w).2 = Some v → ∃ d, v = JObj d).
Proof.
  assert ((_run_ai_agent f s b w).2 = Some v ↔
          ∃ g text m,
            gemini_client w = Some g ∧ g f s b = GenText text ∧
            search_braces (strip text) = Some m ∧ json_loads m = Some v) as Hiff.
  { unfold _run_ai_agent. simpl. split.
    - destruct (gemini_client w) as [g|]; [|done].
      destruct (g f s b) as [|text] eqn:Hg; [done|].
      destruct (search_braces (strip text)) as [m|] eqn:Hm; [|done].
      simpl. intros H. by exists g, text, m.
    - intros (g & text & m & -> & -> & -> & H). done. }
  split; [done|]. intros (g & text & m & _ & _ & Hm & Hv)%Hiff.
  apply search_braces_head in Hm as [r ->]. by apply json_loads_brace in Hv.
Qed.

Lemma classifier_returns_what_it_decodes_witness :
  (_run_ai_agent (lit "bob@example.com") (lit "ARIMA or LSTM?")
     (lit "Which model should I use?")
     (one_message from_bob (answering partial_response))).2
  = Some (JObj (<[lit "is_technical" := JBool true]> ∅)).
Proof.
  apply (proj1 (classifier_returns_what_it_decodes _ _ _ _ _)).
  exists (λ _ _ _, GenText partial_response), partial_response, partial_response.
  repeat split; vm_compute; reflexivity.
Defined.

(** C8, as stated, fails: the first well-formed JSON object of the
    response is there, but a remark with braces follows it and the
    classifier returns [None]. *)
Lemma brace_in_commentary_loses_the_object :
  first_json_object chatty_response = Some (JObj (<[lit "is_technical" := JBool true]> ∅)) ∧
  (_run_ai_agent (lit "bob@example.com") (lit "ARIMA or LSTM?")
     (lit "Which model should I use?")
     (one_message from_bob (answering chatty_response))).2 = None.
Proof. split; by vm_compute. Qed.

(** C8, amended: the text that is decoded runs from the first '{' of the
    trimmed response to its last '}'. Commentary before it is tolerated
    when it has no '{' and commentary after it when it has no '}'. When
    the response has no '{' with a '}' after it, the result is [None],
    as it is when decoding fails. *)
Theorem extraction_spans_first_to_last_brace
  (w : world) (g : str → str → str → generated) (f s b text : str) :
  gemini_client w = Some g → g f s b = GenText text →
  (∀ pre mid post,
     strip text = pre ++ LBRACE :: mid ++ RBRACE :: post →
     LBRACE ∉ pre → RBRACE ∉ post →
     (_run_ai_agent f s b w).2 = json_loads (LBRACE :: mid ++ [RBRACE])) ∧
  ((∀ pre mid post, strip text ≠ pre ++ LBRACE :: mid ++ RBRACE :: post) →
   (_run_ai_agent f s b w).2 = None).
Proof.
  intros Hg Ht. unfold _run_ai_agent. simpl. rewrite Hg, Ht. split.
  - intros pre mid post -> Hpre Hpost. by rewrite search_braces_span.
  - intros H. apply search_braces_None in H. by rewrite H.
Qed.

Lemma extraction_spans_first_to_last_brace_witness :
  (_run_ai_agent (lit "bob@example.com") (lit "ARIMA or LSTM?")
     (lit "Which model should I use?")
     (one_message from_bob (answering framed_response))).2
  = json_loads (dq "{'is_technical': false, 'non_technical_reply_draft': 'Thank you.'}").
Proof.
  apply (proj1 (extraction_spans_first_to_last_brace
                  (one_message from_bob (answering framed_response))
                  (λ _ _ _, GenText framed_response)
                  (lit "bob@example.com") (lit "ARIMA or LSTM?")
                  (lit "Which model should I use?") framed_response
                  eq_refl eq_refl)
           (lit "Sure! ")
           (dq "'is_technical': false, 'non_technical_reply_draft': 'Thank you.'")
           (lit " Bye.")).
  - vm_compute. reflexivity.
  - apply (bool_decide_unpack _). vm_compute. exact I.
  - apply (bool_decide_unpack _). vm_compute. exact I.
Defined.

Lemma one_send_attempt_witness :
  ∃ w4,
    main_agent_workflow (one_message from_bob (answering framed_response)) = (w4, Ok ()) ∧
    trace w4 =
      [MarkedSeen from_bob;
       Classified (lit "bob@example.com") (lit "ARIMA or LSTM?")
         (lit "Which model should I use?");
       SendAttempt (lit "bob@example.com") (lit "Re: ARIMA or LSTM?") (lit "Thank you.")] ∧
    sends (trace w4) = 1.
Proof.
  pose proof (one_send_attempt (one_message from_bob (answering framed_response))
                (record_event (MarkedSeen from_bob)
                   (set_unseen [] (one_message from_bob (answering framed_response))))
                (Some (lit "bob@example.com", lit "ARIMA or LSTM?",
                       lit "Which model should I use?"))
                eq_refl) as H.
  vm_compute in H. destruct H as (w3 & _ & _ & w4 & Hrun & _ & _).
  exists w4. injection Hrun as <-.
  split; [|split]; vm_compute; reflexivity.
Defined.

(** * Further properties: the sender, the body and the mailbox *)

Lemma match_tag_not_lt (c : N) (r : str) : c ≠ LT → match_tag (c :: r) = None.
Proof.
  intros Hc. destruct r as [|d r]; simpl; [done|].
  destruct (c =? LT)%N eqn:E; [apply N.eqb_eq in E; done | done].
Qed.

Lemma search_tag_first (pre addr post : str) :
  LT ∉ pre → addr ≠ [] → GT ∉ addr →
  search_tag (pre ++ LT :: addr ++ GT :: post) = Some addr.
Proof.
  intros Hpre Hne Hgt. induction pre as [|c pre IH].
  - assert (match_tag (LT :: addr ++ GT :: post) = Some (addr, post)) as H
      by by apply match_tag_Some.
    simpl app. cbn [search_tag]. by rewrite H.
  - apply not_elem_of_cons in Hpre as [Hc Hpre].
    change ((c :: pre) ++ LT :: addr ++ GT :: post)
      with (c :: (pre ++ LT :: addr ++ GT :: post)).
    cbn [search_tag]. rewrite match_tag_not_lt by done. by apply IH.
Qed.



(** X1: for a From header without raw 8-bit bytes, of the form
    [pre <addr> post] where [pre] has no '<' and [addr] is not empty and
    has no '>', the sender is [addr]. *)
Theorem sender_in_brackets (m : message) (pre addr post : str) :
  from_header m = Some (pre ++ LT :: addr ++ GT :: post) →
  has_surrogates (pre ++ LT :: addr ++ GT :: post) = false →
  LT ∉ pre → addr ≠ [] → GT ∉ addr →
  sender_of m = Some addr.
Proof.
  intros Hm Hraw Hpre Hne Hgt. unfold sender_of, get_header. rewrite Hm, Hraw.
  by rewrite search_tag_first.
Qed.

Lemma sender_in_brackets_witness : sender_of from_bob = Some (lit "bob@example.com").
Proof.
  apply (sender_in_brackets from_bob (lit "Bob ") (lit "bob@example.com") []).
  - reflexivity.
  - vm_compute. reflexivity.
  - apply (bool_decide_unpack _). vm_compute. exact I.
  - discriminate.
  - apply (bool_decide_unpack _). vm_compute. exact I.
Defined.



(** X3: the body of a multipart message is the payload of its first
    text/plain part, whatever parts come after it, and the empty string
    when it has no text/plain part. *)
Theorem body_is_first_plain_part (m : message) (parts : list (str * option str)) :
  body_content m = Multipart parts →
  (∀ pre payload post,
     parts = pre ++ (lit "text/plain", payload) :: post →
     Forall (λ part, part.1 ≠ lit "text/plain") pre →
     body_of m = payload) ∧
  (Forall (λ part, part.1 ≠ lit "text/plain") parts → body_of m = Some []).
Proof.
  intros Hm. unfold body_of. rewrite Hm. clear Hm. split.
  - intros pre payload post -> Hpre.
    induction Hpre as [|[ctype p] pre Hp _ IH]; cbn [app first_plain].
    + by rewrite bool_decide_eq_true_2.
    + simpl in Hp. by rewrite bool_decide_eq_false_2.
  - intros Hall. induction Hall as [|[ctype p] rest Hp _ IH]; cbn [first_plain]; [done|].
    simpl in Hp. by rewrite bool_decide_eq_false_2.
Qed.

Lemma body_is_first_plain_part_witness : body_of empty_sender = Some (lit "Hi").
Proof.
  apply (proj1 (body_is_first_plain_part empty_sender _ eq_refl)
           [(lit "text/html", Some (lit "<p>Hi</p>"))] (Some (lit "Hi")) []).
  - reflexivity.
  - constructor; [|constructor]. simpl. discriminate.
Defined.

Lemma fetch_latest (w : world) (older : list message) (m : message) :
  credentials w = true → imap_up w = true → unseen w = older ++ [m] →
  _fetch_latest_unread_email w =
    (record_event (MarkedSeen m) (set_unseen older w), read_message m).
Proof.
  intros Hc Hi Hu. unfold _fetch_latest_unread_email, read_message. rewrite Hc, Hi, Hu. simpl.
  rewrite reverse_snoc, reverse_involutive.
  destruct (sender_of m); [|done]. by destruct (body_of m).
Qed.

Lemma fetch_nothing (w : world) :
  credentials w = false ∨ imap_up w = false ∨ unseen w = [] →
  _fetch_latest_unread_email w = (w, None).
Proof.
  unfold _fetch_latest_unread_email. intros [H|[H|H]]; rewrite H; simpl; [done| |].
  - by destruct (credentials w).
  - destruct (credentials w); [|done]. by destruct (imap_up w).
Qed.

(** What the classifier returns depends on the client and on the
    message only. *)
Lemma run_ai_agent_result (f s b : str) (w : world) :
  (_run_ai_agent f s b w).2 =
  match gemini_client w with
  | None => None
  | Some g =>
      match g f s b with
      | GenRaises => None
      | GenText text => search_braces (strip text) ≫= json_loads
      end
  end.
Proof.
  unfold _run_ai_agent. simpl. destruct (gemini_client w) as [g|]; [|done].
  destruct (g f s b) as [|text]; [done|]. by destruct (search_braces (strip text)).
Qed.


(** A run on a mailbox whose newest unseen message is [m]. *)
Lemma workflow_on_latest (w : world) (older : list message) (m : message) :
  credentials w = true → imap_up w = true → unseen w = older ++ [m] →
  main_agent_workflow w =
  let w1 := record_event (MarkedSeen m) (set_unseen older w) in
  match read_message m with
  | None => (w1, Ok ())
  | Some (from_email, subject, body) =>
      if decide (from_email = []) then (w1, Ok ())
      else
        let w2 := record_event (Classified from_email subject body) w1 in
        match select_reply (_run_ai_agent from_email subject body w).2 with
        | Raise e => (w2, Raise e)
        | Ok reply =>
            (record_event (SendAttempt from_email (lit "Re: " ++ subject) reply) w2,
             Ok ())
        end
  end.
Proof.
  intros Hc Hi Hu. rewrite workflow_run, (fetch_latest w older m) by done.
  destruct (read_message m) as [[[from_email subject] body]|]; [|done]. cbv zeta.
  destruct (decide (from_email = [])); [done|].
  by rewrite !run_ai_agent_result.
Qed.

Lemma read_message_Some (m : message) (from_email body : str) :
  sender_of m = Some from_email → body_of m = Some body →
  read_message m = Some (from_email, subject_of m, body).
Proof. intros Hs Hb. unfold read_message. by rewrite Hs, Hb. Qed.

(** X4: a newest unseen message whose payload cannot be decoded is
    marked seen and the run ends there: nothing is classified, nothing
    is sent, and the message is no longer among the unseen ones. *)
Theorem undecodable_message_is_dropped (w : world) (older : list message) (m : message) :
  credentials w = true → imap_up w = true → unseen w = older ++ [m] →
  body_of m = None →
  main_agent_workflow w = (record_event (MarkedSeen m) (set_unseen older w), Ok ()).
Proof.
  intros Hc Hi Hu Hb. rewrite (workflow_on_latest w older m) by done.
  unfold read_message. rewrite Hb. by destruct (sender_of m).
Qed.

Lemma undecodable_message_is_dropped_witness :
  main_agent_workflow (one_message undecodable None) =
    ({| credentials := true; imap_up := true; unseen := [];
        gemini_client := None; smtp_up := true;
        trace := [MarkedSeen undecodable] |}, Ok ()).
Proof.
  apply (undecodable_message_is_dropped (one_message undecodable None) [] undecodable);
    reflexivity.
Defined.

(** X24: a newest unseen message whose From header holds a raw 8-bit
    byte is marked seen and the run ends there: the search for the
    address raises on the header object, so nothing is classified and
    nothing is sent. *)
Theorem raw_sender_is_dropped (w : world) (older : list message) (m : message) (h : str) :
  credentials w = true → imap_up w = true → unseen w = older ++ [m] →
  from_header m = Some h → has_surrogates h = true →
  main_agent_workflow w = (record_event (MarkedSeen m) (set_unseen older w), Ok ()).
Proof.
  intros Hc Hi Hu Hh Hraw. rewrite (workflow_on_latest w older m) by done.
  unfold read_message, sender_of, get_header. by rewrite Hh, Hraw.
Qed.

Lemma raw_sender_is_dropped_witness :
  main_agent_workflow (one_message raw_sender (answering framed_response)) =
    ({| credentials := true; imap_up := true; unseen := [];
        gemini_client := answering framed_response; smtp_up := true;
        trace := [MarkedSeen raw_sender] |}, Ok ()).
Proof.
  apply (raw_sender_is_dropped (one_message raw_sender (answering framed_response))
           [] raw_sender
           (lit "B" ++ [56515%N; 56502%N] ++ lit "b <bob@example.com>")); reflexivity.
Defined.

Lemma workflow_grows (w : world) (older : list message) (m : message) :
  credentials w = true → imap_up w = true → unseen w = older ++ [m] →
  ∃ more,
    trace (main_agent_workflow w).1 = trace w ++ MarkedSeen m :: more ∧
    sends more ≤ 1 ∧
    unseen (main_agent_workflow w).1 = older ∧
    credentials (main_agent_workflow w).1 = credentials w ∧
    imap_up (main_agent_workflow w).1 = imap_up w ∧
    gemini_client (main_agent_workflow w).1 = gemini_client w ∧
    smtp_up (main_agent_workflow w).1 = smtp_up w.
Proof.
  intros Hc Hi Hu. rewrite (workflow_on_latest w older m) by done. cbv zeta.
  assert (sends [] ≤ 1) as H0 by (cbv; lia).
  destruct (read_message m) as [[[f subject] body]|]; [|by exists []].
  destruct (decide (f = [])); [by exists []|].
  destruct (select_reply _) as [reply|e].
  - exists [Classified f subject body; SendAttempt f (lit "Re: " ++ subject) reply].
    cbn [fst record_event set_unseen trace unseen credentials imap_up gemini_client smtp_up].
    rewrite <- !app_assoc. repeat split; done.
  - exists [Classified f subject body].
    cbn [fst record_event set_unseen trace unseen credentials imap_up gemini_client smtp_up].
    rewrite <- !app_assoc. repeat split; done.
Qed.

Lemma workflow_idle (w : world) :
  credentials w = false ∨ imap_up w = false ∨ unseen w = [] →
  main_agent_workflow w = (w, Ok ()).
Proof. intros H. by rewrite workflow_run, fetch_nothing. Qed.

(** X5: a run changes nothing exactly when the credentials are missing,
    the mailbox cannot be reached or there is no unseen message; in
    every other run the newest unseen message is marked seen and leaves
    the unseen ones. *)
Theorem run_is_idle_iff (w : world) :
  (main_agent_workflow w = (w, Ok ()) ↔
   credentials w = false ∨ imap_up w = false ∨ unseen w = []) ∧
  (credentials w = true → imap_up w = true → unseen w ≠ [] →
   ∃ older m more,
     unseen w = older ++ [m] ∧
     unseen (main_agent_workflow w).1 = older ∧
     trace (main_agent_workflow w).1 = trace w ++ MarkedSeen m :: more).
Proof.
  assert (credentials w = true → imap_up w = true → unseen w ≠ [] →
          ∃ older m more,
            unseen w = older ++ [m] ∧
            unseen (main_agent_workflow w).1 = older ∧
            trace (main_agent_workflow w).1 = trace w ++ MarkedSeen m :: more) as Hbusy.
  { intros Hc Hi Hne. destruct (exists_last Hne) as (older & m & Hu).
    destruct (workflow_grows w older m Hc Hi Hu) as (more & Ht & _ & Hu' & _).
    by exists older, m, more. }
  split; [|done]. split; [|apply workflow_idle].
  intros H. destruct (credentials w) eqn:Hc; [|by left].
  destruct (imap_up w) eqn:Hi; [|by right; left].
  destruct (decide (unseen w = [])) as [|Hne]; [by right; right|]. exfalso.
  destruct (Hbusy eq_refl eq_refl Hne) as (older & m & more & _ & _ & Ht).
  rewrite H in Ht. simpl in Ht. apply (f_equal length) in Ht.
  rewrite length_app in Ht. simpl in Ht. lia.
Qed.

Lemma run_is_idle_iff_witness :
  ∃ older m more,
    unseen (one_message undecodable None) = older ++ [m] ∧
    unseen (main_agent_workflow (one_message undecodable None)).1 = older ∧
    trace (main_agent_workflow (one_message undecodable None)).1 =
      trace (one_message undecodable None) ++ MarkedSeen m :: more.
Proof.
  apply (proj2 (run_is_idle_iff (one_message undecodable None))).
  - reflexivity.
  - reflexivity.
  - discriminate.
Defined.

(** X6: a run on a reachable mailbox whose newest unseen message has a
    sender that is not empty and a body that decodes, when the reply
    selection returns a reply: that message alone leaves the unseen
    ones, it is classified once, and the reply goes to its sender under
    the subject "Re: " and the message's subject, which is "No Subject"
    when the message has none. *)
Theorem run_replies_to_newest (w : world) (older : list message) (m : message)
    (from_email body reply : str) :
  credentials w = true → imap_up w = true → unseen w = older ++ [m] →
  sender_of m = Some from_email → from_email ≠ [] → body_of m = Some body →
  select_reply (_run_ai_agent from_email (subject_of m) body w).2 = Ok reply →
  main_agent_workflow w =
    ({| credentials := credentials w; imap_up := imap_up w; unseen := older;
        gemini_client := gemini_client w; smtp_up := smtp_up w;
        trace := trace w ++
                 [MarkedSeen m;
                  Classified from_email (subject_of m) body;
                  SendAttempt from_email (lit "Re: " ++ subject_of m) reply] |},
     Ok ()) ∧
  (subject_header m = None → subject_of m = lit "No Subject").
Proof.
  intros Hc Hi Hu Hs Hne Hb Hr.
  split; [|by intros H; unfold subject_of, get_header; rewrite H].
  rewrite (workflow_on_latest w older m) by done.
  rewrite (read_message_Some m from_email body) by done. cbv zeta.
  rewrite decide_False by done. rewrite Hr.
  unfold record_event, set_unseen. simpl. by rewrite <- !app_assoc.
Qed.

Lemma run_replies_to_newest_witness :
  main_agent_workflow (one_message from_bob (answering framed_response)) =
    ({| credentials := true; imap_up := true; unseen := [];
        gemini_client := answering framed_response; smtp_up := true;
        trace := [MarkedSeen from_bob;
                  Classified (lit "bob@example.com") (lit "ARIMA or LSTM?")
                    (lit "Which model should I use?");
                  SendAttempt (lit "bob@example.com") (lit "Re: ARIMA or LSTM?")
                    (lit "Thank you.")] |},
     Ok ()).
Proof.
  apply (run_replies_to_newest (one_message from_bob (answering framed_response))
           [] from_bob (lit "bob@example.com") (lit "Which model should I use?")
           (lit "Thank you.")).
  - reflexivity.
  - reflexivity.
  - reflexivity.
  - vm_compute. reflexivity.
  - discriminate.
  - reflexivity.
  - vm_compute. reflexivity.
Defined.

(** X7: a run never changes the credentials, the reachability of the
    servers or the client; it only adds to the trace; and it takes at
    most one message, the last one, from the unseen ones. *)
Theorem run_keeps_configuration (w : world) :
  credentials (main_agent_workflow w).1 = credentials w ∧
  imap_up (main_agent_workflow w).1 = imap_up w ∧
  gemini_client (main_agent_workflow w).1 = gemini_client w ∧
  smtp_up (main_agent_workflow w).1 = smtp_up w ∧
  (∃ new, trace (main_agent_workflow w).1 = trace w ++ new) ∧
  (unseen (main_agent_workflow w).1 = unseen w ∨
   ∃ m, unseen w = unseen (main_agent_workflow w).1 ++ [m]).
Proof.
  destruct (credentials w) eqn:Hc; [destruct (imap_up w) eqn:Hi;
    [destruct (decide (unseen w = [])) as [Hu|Hne]|]|].
  - rewrite workflow_idle by auto. simpl.
    repeat split; try done. + exists []. by rewrite app_nil_r. + by left.
  - destruct (exists_last Hne) as (older & m & Hu).
    destruct (workflow_grows w older m Hc Hi Hu) as (more & Ht & _ & Hu' & -> & -> & -> & ->).
    repeat split; try done. + by eexists. + right. exists m. by rewrite Hu'.
  - rewrite workflow_idle by auto. simpl.
    repeat split; try done. + exists []. by rewrite app_nil_r. + by left.
  - rewrite workflow_idle by auto. simpl.
    repeat split; try done. + exists []. by rewrite app_nil_r. + by left.
Qed.

(** * Further properties: exceptions, the script and the configuration *)





(** One run makes at most one send attempt. *)
Lemma workflow_sends_at_most_one (w : world) :
  sends (trace (main_agent_workflow w).1) ≤ sends (trace w) + 1.
Proof.
  destruct (credentials w) eqn:Hc; [|rewrite workflow_idle by auto; simpl; lia].
  destruct (imap_up w) eqn:Hi; [|rewrite workflow_idle by auto; simpl; lia].
  destruct (decide (unseen w = [])) as [Hu|Hne]; [rewrite workflow_idle by auto; simpl; lia|].
  destruct (exists_last Hne) as (older & m & Hu).
  destruct (workflow_grows w older m Hc Hi Hu) as (more & -> & Hs & _).
  unfold sends in *. rewrite List.filter_app, length_app. simpl. lia.
Qed.

(** X9: the script runs the workflow twice. On a reachable mailbox
    whose two newest unseen messages have a sender that is not empty
    and a body that decodes, when the reply selection returns a reply
    for both, both leave the unseen ones and both get their reply, the
    newest first. *)
Theorem script_replies_to_two_messages
    (w : world) (older : list message) (m1 m2 : message) (f1 f2 b1 b2 r1 r2 : str) :
  credentials w = true → imap_up w = true → unseen w = older ++ [m2; m1] →
  sender_of m1 = Some f1 → f1 ≠ [] → body_of m1 = Some b1 →
  select_reply (_run_ai_agent f1 (subject_of m1) b1 w).2 = Ok r1 →
  sender_of m2 = Some f2 → f2 ≠ [] → body_of m2 = Some b2 →
  select_reply (_run_ai_agent f2 (subject_of m2) b2 w).2 = Ok r2 →
  script_main w =
    ({| credentials := credentials w; imap_up := imap_up w; unseen := older;
        gemini_client := gemini_client w; smtp_up := smtp_up w;
        trace := trace w ++
                 [MarkedSeen m1;
                  Classified f1 (subject_of m1) b1;
                  SendAttempt f1 (lit "Re: " ++ subject_of m1) r1;
                  MarkedSeen m2;
                  Classified f2 (subject_of m2) b2;
                  SendAttempt f2 (lit "Re: " ++ subject_of m2) r2] |},
     Ok ()).
Proof.
  intros Hc Hi Hu Hs1 Hn1 Hb1 Hr1 Hs2 Hn2 Hb2 Hr2. unfold script_main.
  rewrite (workflow_on_latest w (older ++ [m2]) m1)
    by (done || by rewrite <- app_assoc).
  rewrite (read_message_Some m1 f1 b1) by done.
  cbv zeta. rewrite decide_False by done. rewrite Hr1.
  match goal with
  | |- context [main_agent_workflow ?w1] =>
      rewrite (workflow_on_latest w1 older m2) by done
  end.
  rewrite (read_message_Some m2 f2 b2) by done.
  cbv zeta. rewrite decide_False by done.
  rewrite run_ai_agent_result in Hr2 |- *.
  unfold record_event, set_unseen in *.
  cbn [trace unseen credentials imap_up gemini_client smtp_up]. rewrite Hr2.
  by rewrite <- !app_assoc.
Qed.

Lemma script_replies_to_two_messages_witness :
  sends (trace (script_main
                  {| credentials := true; imap_up := true;
                     unseen := [no_sender; from_bob; from_bob];
                     gemini_client := answering framed_response;
                     smtp_up := false; trace := [] |}).1) = 2.
Proof.
  rewrite (script_replies_to_two_messages
             {| credentials := true; imap_up := true;
                unseen := [no_sender; from_bob; from_bob];
                gemini_client := answering framed_response;
                smtp_up := false; trace := [] |}
             [no_sender] from_bob from_bob
             (lit "bob@example.com") (lit "bob@example.com")
             (lit "Which model should I use?") (lit "Which model should I use?")
             (lit "Thank you.") (lit "Thank you.")).
  - reflexivity.
  - reflexivity.
  - reflexivity.
  - reflexivity.
  - vm_compute. reflexivity.
  - discriminate.
  - reflexivity.
  - vm_compute. reflexivity.
  - vm_compute. reflexivity.
  - discriminate.
  - reflexivity.
  - vm_compute. reflexivity.
Defined.

(** X10: one execution of the script makes at most two send attempts
    and takes at most two messages from the unseen ones. *)
Theorem script_sends_at_most_two (w : world) :
  sends (trace (script_main w).1) ≤ sends (trace w) + 2 ∧
  length (unseen w) ≤ length (unseen (script_main w).1) + 2.
Proof.
  assert (∀ w, length (unseen w) ≤ length (unseen (main_agent_workflow w).1) + 1) as Hlen.
  { clear w. intros w.
    destruct (credentials w) eqn:Hc; [|rewrite workflow_idle by auto; simpl; lia].
    destruct (imap_up w) eqn:Hi; [|rewrite workflow_idle by auto; simpl; lia].
    destruct (decide (unseen w = [])) as [Hu|Hne];
      [rewrite workflow_idle by auto; simpl; lia|].
    destruct (exists_last Hne) as (older & m & Hu).
    destruct (workflow_grows w older m Hc Hi Hu) as (more & _ & _ & -> & _).
    rewrite Hu, length_app. simpl. lia. }
  unfold script_main.
  pose proof (workflow_sends_at_most_one w) as H1. pose proof (Hlen w) as L1.
  destruct (main_agent_workflow w) as [w1 [[]|e]]; simpl in *.
  - pose proof (workflow_sends_at_most_one w1). pose proof (Hlen w1). lia.
  - lia.
Qed.

(** X11: whether the SMTP server accepts the mail has no effect on a
    run: the outcome, the trace and the mailbox are the same, and a
    failed send is not tried again. *)
Theorem run_ignores_send_result (b : bool) (w : world) :
  main_agent_workflow (set_smtp b w) =
  (set_smtp b (main_agent_workflow w).1, (main_agent_workflow w).2).
Proof.
  destruct (credentials w) eqn:Hc;
    [|rewrite (workflow_idle w), (workflow_idle (set_smtp b w)) by auto; done].
  destruct (imap_up w) eqn:Hi;
    [|rewrite (workflow_idle w), (workflow_idle (set_smtp b w)) by auto; done].
  destruct (decide (unseen w = [])) as [Hu|Hne];
    [rewrite (workflow_idle w), (workflow_idle (set_smtp b w)) by auto; done|].
  destruct (exists_last Hne) as (older & m & Hu).
  rewrite (workflow_on_latest w older m), (workflow_on_latest (set_smtp b w) older m) by done.
  cbv zeta. destruct (read_message m) as [[[f subject] body]|]; [|done].
  destruct (decide (f = [])); [done|].
  rewrite !run_ai_agent_result. cbn [set_smtp gemini_client].
  by destruct (select_reply _).
Qed.

Ltac lit_neq := let H := fresh in intros H; vm_compute in H; discriminate H.

(** X12: after the LangSmith block, LANGCHAIN_TRACING_V2 is "true" when
    LANGCHAIN_API_KEY is set and not empty, and "false" otherwise. The
    key keeps its value, LANGCHAIN_PROJECT is overwritten only when
    tracing is on, and no other variable changes. *)
Theorem langsmith_tracing_flag (env : gmap str str) :
  configure_langsmith env !! lit "LANGCHAIN_TRACING_V2" =
    Some (if env_set env (lit "LANGCHAIN_API_KEY") then lit "true" else lit "false") ∧
  configure_langsmith env !! lit "LANGCHAIN_PROJECT" =
    (if env_set env (lit "LANGCHAIN_API_KEY")
     then Some (lit "Email_automation_schedule")
     else env !! lit "LANGCHAIN_PROJECT") ∧
  (∀ name, name ≠ lit "LANGCHAIN_TRACING_V2" → name ≠ lit "LANGCHAIN_PROJECT" →
           configure_langsmith env !! name = env !! name).
Proof.
  unfold configure_langsmith, env_set.
  destruct (env !! lit "LANGCHAIN_API_KEY") as [[|c key]|] eqn:Hk.
  - split; [apply lookup_insert_eq|]. split.
    + rewrite lookup_insert_ne; [done | lit_neq].
    + intros name H1 H2. by rewrite lookup_insert_ne.
  - split.
    + rewrite lookup_insert_ne by lit_neq. rewrite lookup_insert_ne by lit_neq.
      apply lookup_insert_eq.
    + split; [apply lookup_insert_eq|]. intros name H1 H2.
      rewrite lookup_insert_ne by done.
      destruct (decide (name = lit "LANGCHAIN_API_KEY")) as [->|Hn].
      * by rewrite lookup_insert_eq.
      * rewrite lookup_insert_ne by done. by rewrite lookup_insert_ne.
  - split; [apply lookup_insert_eq|]. split.
    + rewrite lookup_insert_ne; [done | lit_neq].
    + intros name H1 H2. by rewrite lookup_insert_ne.
Qed.

(** X13: when EMAIL_ADDRESS or EMAIL_PASSWORD is unset or empty, the
    script does nothing, whatever the mailbox holds: no message is
    marked seen, nothing is classified, nothing is sent. A call of
    [_send_smtp_email] then reports failure. *)
Theorem missing_credentials_stop_the_script
    (env : gmap str str) (Client : str → option (str → str → str → str → generated))
    (imap_ok smtp_ok : bool) (inbox : list message) (to_email subject content : str) :
  env_set env (lit "EMAIL_ADDRESS") = false ∨ env_set env (lit "EMAIL_PASSWORD") = false →
  script_main (start env Client imap_ok inbox smtp_ok) =
    (start env Client imap_ok inbox smtp_ok, Ok ()) ∧
  (_send_smtp_email to_email subject content
     (start env Client imap_ok inbox smtp_ok)).2 = false.
Proof.
  intros H.
  assert (credentials (start env Client imap_ok inbox smtp_ok) = false) as Hc.
  { simpl. destruct H as [-> | ->]; [done | apply andb_false_r]. }
  split.
  - unfold script_main. rewrite workflow_idle by auto. by rewrite workflow_idle by auto.
  - unfold _send_smtp_email. cbn [record_event credentials snd] in *. by rewrite Hc.
Qed.

Lemma missing_credentials_stop_the_script_witness :
  script_main (start empty_password_env (service framed_response) true [from_bob] true) =
    (start empty_password_env (service framed_response) true [from_bob] true, Ok ()).
Proof.
  apply (missing_credentials_stop_the_script empty_password_env (service framed_response)
           true true [from_bob] [] [] []).
  right. vm_compute. reflexivity.
Defined.

(** X14: when GEMINI_API_KEY is unset or empty, or when the client's
    constructor raises, a process that has the mail credentials still
    answers: a newest unseen message with a sender that is not empty
    and a body that decodes gets the safe default reply. *)
Theorem no_client_sends_safe_default
    (env : gmap str str) (Client : str → option (str → str → str → str → generated))
    (smtp_ok : bool) (older : list message) (m : message) (from_email body : str) :
  env_set env (lit "EMAIL_ADDRESS") = true → env_set env (lit "EMAIL_PASSWORD") = true →
  env_set env (lit "GEMINI_API_KEY") = false ∨ (∀ key, Client key = None) →
  sender_of m = Some from_email → from_email ≠ [] → body_of m = Some body →
  main_agent_workflow (start env Client true (older ++ [m]) smtp_ok) =
    ({| credentials := true; imap_up := true; unseen := older;
        gemini_client := None; smtp_up := smtp_ok;
        trace := [MarkedSeen m;
                  Classified from_email (subject_of m) body;
                  SendAttempt from_email (lit "Re: " ++ subject_of m)
                    SAFE_DEFAULT_REPLY] |},
     Ok ()).
Proof.
  intros Ha Hp Hk Hs Hne Hb.
  assert (init_gemini_client env Client = None) as Hcl.
  { unfold init_gemini_client, env_set in *.
    destruct (env !! lit "GEMINI_API_KEY") as [[|c key]|]; try done.
    by destruct Hk as [|Hk]. }
  rewrite (workflow_on_latest _ older m);
    [|by cbn [start credentials]; rewrite Ha, Hp|done|done].
  rewrite (read_message_Some m from_email body) by done.
  cbv zeta. rewrite decide_False by done.
  rewrite run_ai_agent_result. unfold start. cbn [gemini_client]. rewrite Hcl.
  cbv iota. change (select_reply None) with (Ok SAFE_DEFAULT_REPLY). cbv iota.
  unfold record_event, set_unseen.
  cbn [trace unseen credentials imap_up gemini_client smtp_up]. by rewrite Ha, Hp.
Qed.

Lemma no_client_sends_safe_default_witness :
  sends (trace (main_agent_workflow
                  (start mail_only_env (service framed_response) true [from_bob] false)).1)
  = 1.
Proof.
  change [from_bob] with ([] ++ [from_bob]).
  rewrite (no_client_sends_safe_default mail_only_env (service framed_response) false
             [] from_bob (lit "bob@example.com") (lit "Which model should I use?")).
  - reflexivity.
  - vm_compute. reflexivity.
  - vm_compute. reflexivity.
  - left. vm_compute. reflexivity.
  - vm_compute. reflexivity.
  - discriminate.
  - reflexivity.
Defined.

(** * Further properties: sanitation, the greeting and the patterns *)

(** X15: [re.sub] changes a text exactly when the text has a tag; a
    lone '<', a '<' that no '>' follows and "<>" are left as they are. *)
Theorem sub_tags_changes_only_tagged (s : str) : sub_tags s = s ↔ ¬ has_tag s.
Proof.
  split; [|apply sub_tags_fixed]. intros H. rewrite <- H. apply sub_tags_no_tag.
Qed.

(** X16: the first tag of a text is removed, the text before it is
    kept, and the removal goes on after the tag: the characters of the
    tag itself are never looked at again. *)
Theorem sub_tags_removes_first_tag (a body b : str) :
  LT ∉ a → body ≠ [] → GT ∉ body →
  sub_tags (a ++ LT :: body ++ GT :: b) = a ++ sub_tags b.
Proof.
  intros Ha Hne Hgt. induction a as [|c a IH].
  - simpl app. apply (sub_tags_match _ _ body). by apply match_tag_Some.
  - apply not_elem_of_cons in Ha as [Hc Ha].
    change ((c :: a) ++ LT :: body ++ GT :: b) with (c :: (a ++ LT :: body ++ GT :: b)).
    rewrite sub_tags_keep by by apply match_tag_not_lt. simpl. f_equal. by apply IH.
Qed.

Lemma sub_tags_removes_first_tag_witness :
  sub_tags (lit "Hi <b>Bob</b>") = lit "Hi " ++ sub_tags (lit "Bob</b>").
Proof.
  apply (sub_tags_removes_first_tag (lit "Hi ") (lit "b") (lit "Bob</b>")).
  - apply (bool_decide_unpack _). vm_compute. exact I.
  - discriminate.
  - apply (bool_decide_unpack _). vm_compute. exact I.
Defined.

Lemma strip_head (s r : str) (c : N) : strip s = c :: r → isspace c = false.
Proof.
  unfold strip. intros H. destruct (rstrip_split (lstrip s)) as (ws & Hs & _).
  rewrite H in Hs. by apply lstrip_head in Hs.
Qed.

Lemma strip_last (s : str) (c : N) : last (strip s) = Some c → isspace c = false.
Proof.
  unfold strip, rstrip. rewrite last_reverse.
  destruct (lstrip (reverse (lstrip s))) as [|x r] eqn:E; [done|].
  intros [= ->]. by apply lstrip_head in E.
Qed.

(** X17: a sanitised text neither begins nor ends with white space. *)
Theorem sanitized_is_trimmed (s : str) (c : N) :
  head (sanitize s) = Some c ∨ last (sanitize s) = Some c → isspace c = false.
Proof.
  unfold sanitize. intros [H|H]; [|by apply strip_last in H].
  destruct (strip (sub_tags s)) as [|x r] eqn:E; [done|].
  injection H as ->. by apply strip_head in E.
Qed.

Lemma sanitized_is_trimmed_witness :
  head (sanitize (lit "  <p>Hi</p> ")) = Some 72%N ∧ isspace 72 = false.
Proof.
  split; [by vm_compute|].
  apply (sanitized_is_trimmed (lit "  <p>Hi</p> ")). left. vm_compute. reflexivity.
Defined.

Lemma sub_tags_sublist (s : str) : sub_tags s `sublist_of` s.
Proof.
  apply (sub_tags_ind (λ s t, t `sublist_of` s)); clear s.
  - done.
  - intros c r g rest E IH. apply match_tag_Some in E as (-> & _ & _).
    apply sublist_cons. apply sublist_inserts_l. by apply sublist_cons.
  - intros c r _ IH. by apply sublist_skip.
Qed.

(** X18: sanitation only removes characters: the sanitised text is made
    of characters of the draft, in their order. *)
Theorem sanitized_is_sublist (s : str) : sanitize s `sublist_of` s.
Proof.
  unfold sanitize. etrans; [|apply sub_tags_sublist].
  destruct (strip_split (sub_tags s)) as (l & r & Hs). rewrite Hs at 2.
  apply sublist_inserts_l, sublist_inserts_r. done.
Qed.

Lemma lstrip_nil (s : str) : lstrip s = [] ↔ Forall (λ c, isspace c = true) s.
Proof.
  induction s as [|c r IH]; simpl; [done|]. destruct (isspace c) eqn:Hc.
  - rewrite IH. split; [by constructor | by inversion 1].
  - split; [done|]. inversion 1; congruence.
Qed.

Lemma strip_nil (s : str) : strip s = [] ↔ Forall (λ c, isspace c = true) s.
Proof.
  unfold strip, rstrip. destruct (lstrip_split s) as (ws & Hs & Hws).
  rewrite Hs at 2. rewrite Forall_app.
  split.
  - intros H. split; [done|]. apply (f_equal reverse) in H.
    rewrite reverse_involutive in H. simpl in H.
    apply lstrip_nil in H. by apply Forall_reverse.
  - intros [_ H]. apply (Forall_reverse _ (lstrip s)) in H. apply lstrip_nil in H.
    by rewrite H.
Qed.

(** X19: for a chosen draft that is a string, the reply is the bare
    greeting "Hello,\n\n" exactly when nothing is left of the draft
    after sanitation, that is, when the draft without its tags is white
    space only. *)
Theorem bare_greeting_iff (d : gmap str json) (s : str) :
  d !! chosen_field d = Some (JStr s) →
  (select_reply (Some (JObj d)) = Ok (lit "Hello," ++ [NL; NL]) ↔ sanitize s = []) ∧
  (sanitize s = [] ↔ Forall (λ c, isspace c = true) (sub_tags s)).
Proof.
  intros Hd. rewrite (select_reply_dict _ _ Hd). split; [|apply strip_nil]. split.
  - intros [= H]. unfold greet in H.
    destruct (startswith_any (lower (sanitize s)) GREETINGS); cbn [negb] in H.
    + assert (last (sanitize s) = Some NL) as Hl by by rewrite H.
      apply strip_last in Hl. done.
    + apply (f_equal length) in H. rewrite !length_app in H.
      destruct (sanitize s); [done|]. simpl in H. lia.
  - by intros ->.
Qed.

Lemma bare_greeting_iff_witness :
  select_reply (Some (JObj (<[lit "non_technical_reply_draft" := JStr (lit " <br/> ")]> ∅)))
  = Ok (lit "Hello," ++ [NL; NL]).
Proof.
  assert ((<[lit "non_technical_reply_draft" := JStr (lit " <br/> ")]> ∅ : gmap str json)
          !! chosen_field (<[lit "non_technical_reply_draft" := JStr (lit " <br/> ")]> ∅)
          = Some (JStr (lit " <br/> "))) as H by (vm_compute; reflexivity).
  apply (proj1 (bare_greeting_iff _ _ H)). vm_compute. reflexivity.
Defined.

(** X20: the greeting test does not look at the case of the letters: a
    text that begins with a greeting token written in any mix of upper
    and lower case is left as it is. *)
Theorem greeting_is_case_insensitive (p t g : str) :
  g ∈ GREETINGS → lower p = g → greet (p ++ t) = p ++ t.
Proof.
  intros Hg Hp. apply greet_kept, startswith_any_prefix.
  exists g. split; [done|]. rewrite lower_app, Hp. by apply prefix_app_r.
Qed.

Lemma greeting_is_case_insensitive_witness :
  greet (lit "THANK YOU" ++ lit ", Bob.") = lit "THANK YOU" ++ lit ", Bob.".
Proof.
  apply (greeting_is_case_insensitive _ _ (lit "thank you")).
  - apply (bool_decide_unpack _). vm_compute. exact I.
  - vm_compute. reflexivity.
Defined.

(** X21: when [is_technical] is absent or not true, [request_meeting]
    has no influence on the reply. *)
Theorem request_meeting_needs_is_technical (d : gmap str json) (v : json) :
  truthy (dict_get d (lit "is_technical") (JBool false)) = false →
  select_reply (Some (JObj (<[lit "request_meeting" := v]> d))) =
  select_reply (Some (JObj d)).
Proof.
  intros Ht.
  assert (chosen_field d = lit "non_technical_reply_draft") as Hc
    by (unfold chosen_field; by rewrite Ht).
  assert (chosen_field (<[lit "request_meeting" := v]> d) = lit "non_technical_reply_draft")
    as Hc'.
  { unfold chosen_field, dict_get in *. rewrite lookup_insert_ne by lit_neq. by rewrite Ht. }
  assert (<[lit "request_meeting" := v]> d !! lit "non_technical_reply_draft"
          = d !! lit "non_technical_reply_draft") as Hl
    by (rewrite lookup_insert_ne; [done | lit_neq]).
  destruct (d !! lit "non_technical_reply_draft") as [x|] eqn:Hx.
  - rewrite (select_reply_dict d x) by by rewrite Hc.
    by rewrite (select_reply_dict _ x) by by rewrite Hc'.
  - rewrite (select_reply_absent d) by by rewrite Hc.
    by rewrite select_reply_absent by by rewrite Hc'.
Qed.

Lemma request_meeting_needs_is_technical_witness :
  select_reply (Some (JObj (<[lit "request_meeting" := JBool true]> scenario_C))) =
  select_reply (Some (JObj scenario_C)).
Proof.
  apply (request_meeting_needs_is_technical scenario_C (JBool true)).
  vm_compute. reflexivity.
Defined.

Lemma upto_last_rbrace_Some (r t : str) :
  upto_last_rbrace r = Some t →
  ∃ mid post, r = mid ++ RBRACE :: post ∧ (RBRACE ∉ post) ∧ t = mid ++ [RBRACE].
Proof.
  revert t. induction r as [|c r IH]; intros t; simpl; [done|].
  destruct (upto_last_rbrace r) as [t'|] eqn:E.
  - intros [= <-]. destruct (IH t' eq_refl) as (mid & post & -> & Hp & ->).
    by exists (c :: mid), post.
  - destruct (c =? RBRACE)%N eqn:Ec; [|done]. apply N.eqb_eq in Ec as ->.
    intros [= <-]. exists [], r. by apply upto_last_rbrace_None in E.
Qed.

(** X22: when the brace pattern matches, the match starts at the first
    '{' of the text and ends at its last '}': there is no '{' before it
    and no '}' after it. *)
Theorem braces_match_is_outermost (s m : str) :
  search_braces s = Some m →
  ∃ pre mid post,
    s = pre ++ m ++ post ∧ m = LBRACE :: mid ++ [RBRACE] ∧
    (LBRACE ∉ pre) ∧ (RBRACE ∉ post).
Proof.
  induction s as [|c s IH]; [done|]. cbn [search_braces match_braces].
  destruct (c =? LBRACE)%N eqn:Ec.
  - apply N.eqb_eq in Ec as ->.
    destruct (upto_last_rbrace s) as [t|] eqn:Et; simpl.
    + intros [= <-]. apply upto_last_rbrace_Some in Et as (mid & post & -> & Hp & ->).
      exists [], mid, post. split; [|split; [done|split; [apply not_elem_of_nil|done]]].
      simpl. by rewrite <- app_assoc.
    + intros H. exfalso. apply upto_last_rbrace_None in Et.
      assert (search_braces s = None) as Hn; [|congruence].
      apply search_braces_None. intros pre mid post ->. apply Et.
      apply elem_of_app. right. right. apply elem_of_app. right. by left.
  - apply N.eqb_neq in Ec. intros (pre & mid & post & -> & -> & Hpre & Hpost)%IH.
    exists (c :: pre), mid, post. split; [done|]. split; [done|].
    split; [|done]. rewrite not_elem_of_cons. split; [congruence | done].
Qed.

Lemma braces_match_is_outermost_witness :
  ∃ pre mid post,
    strip framed_response =
      pre ++ dq "{'is_technical': false, 'non_technical_reply_draft': 'Thank you.'}" ++ post ∧
    dq "{'is_technical': false, 'non_technical_reply_draft': 'Thank you.'}" =
      LBRACE :: mid ++ [RBRACE] ∧
    (LBRACE ∉ pre) ∧ (RBRACE ∉ post).
Proof.
  apply (braces_match_is_outermost (strip framed_response)). vm_compute. reflexivity.
Defined.

(** X23: the two flags are read by their truth value, whatever their
    type: putting another value of the same truth value in place of
    [is_technical] or [request_meeting] leaves the reply as it is. So a
    non-empty string, "false" included, counts as true. *)
Theorem flags_are_read_by_truth_value (d : gmap str json) (flag : str) (v v' : json) :
  flag = lit "is_technical" ∨ flag = lit "request_meeting" →
  truthy v = truthy v' →
  select_reply (Some (JObj (<[flag := v]> d))) =
  select_reply (Some (JObj (<[flag := v']> d))).
Proof.
  intros Hf Hv.
  assert (chosen_field (<[flag := v]> d) = chosen_field (<[flag := v']> d)) as Hc.
  { unfold chosen_field, dict_get. destruct Hf as [-> | ->].
    - rewrite !lookup_insert_eq. simpl. rewrite Hv.
      rewrite !(lookup_insert_ne _ (lit "is_technical") (lit "request_meeting")) by lit_neq.
      done.
    - rewrite !(lookup_insert_ne _ (lit "request_meeting") (lit "is_technical")) by lit_neq.
      rewrite !lookup_insert_eq. simpl. by rewrite Hv. }
  assert (flag ≠ chosen_field (<[flag := v']> d)) as Hne.
  { unfold chosen_field.
    destruct Hf as [-> | ->]; repeat case_match; lit_neq. }
  destruct (d !! chosen_field (<[flag := v']> d)) as [x|] eqn:Hx.
  - rewrite (select_reply_dict (<[flag := v]> d) x)
      by (rewrite Hc; by rewrite lookup_insert_ne).
    by rewrite (select_reply_dict (<[flag := v']> d) x) by by rewrite lookup_insert_ne.
  - rewrite (select_reply_absent (<[flag := v]> d))
      by (rewrite Hc; by rewrite lookup_insert_ne).
    by rewrite (select_reply_absent (<[flag := v']> d)) by by rewrite lookup_insert_ne.
Qed.

Lemma flags_are_read_by_truth_value_witness :
  select_reply (Some (JObj (<[lit "is_technical" := JStr (lit "false")]> scenario_A))) =
  select_reply (Some (JObj (<[lit "is_technical" := JBool true]> scenario_A))).
Proof.
  apply (flags_are_read_by_truth_value scenario_A (lit "is_technical")
           (JStr (lit "false")) (JBool true)); [by left | reflexivity].
Defined.
